(** * go-dbus-codegen: the binding printer, the legacy argument deriver and
      the interface merger, embedded and verified.

    Go strings are byte sequences and are modelled by [string] (a list of
    8-bit [ascii] characters).  The functions of Go's [strings] package that
    the sources call are modelled on the ASCII range, where they act byte by
    byte.  Go maps the case of Unicode letters as well; the model leaves
    bytes above 127 as they are, so what is proved about case mapping is
    proved for ASCII names, which is what D-Bus names are. *)

From Stdlib Require Import Bool Arith ZArith Lia List Ascii String.
From Stdlib Require Import Permutation Sorted DecimalString DecimalPos DecimalZ.
Import ListNotations.

Local Open Scope list_scope.
Local Open Scope string_scope.

(** ** Characters and literals *)

Definition nl : string := String (ascii_of_nat 10) EmptyString.
Definition tab : string := String (ascii_of_nat 9) EmptyString.
Definition dq : string := String (ascii_of_nat 34) EmptyString.

Definition between (lo hi c : ascii) : bool :=
  (N_of_ascii lo <=? N_of_ascii c)%N && (N_of_ascii c <=? N_of_ascii hi)%N.

Definition is_lower (c : ascii) : bool := between "a" "z" c.
Definition is_upper (c : ascii) : bool := between "A" "Z" c.
Definition is_digit (c : ascii) : bool := between "0" "9" c.
Definition is_letter (c : ascii) : bool := is_lower c || is_upper c.
(** The character class [[a-zA-Z0-9]] of the three regular expressions. *)
Definition is_alnum (c : ascii) : bool := is_letter c || is_digit c.
Definition is_underscore (c : ascii) : bool := Ascii.eqb c "_".
(** Bytes 0..127. *)
Definition is_ascii (c : ascii) : bool := (N_of_ascii c <? 128)%N.

Definition upper_char (c : ascii) : ascii :=
  if is_lower c then ascii_of_N (N_of_ascii c - 32) else c.
Definition lower_char (c : ascii) : ascii :=
  if is_upper c then ascii_of_N (N_of_ascii c + 32) else c.

Fixpoint string_forallb (p : ascii -> bool) (s : string) : bool :=
  match s with
  | EmptyString => true
  | String c s' => p c && string_forallb p s'
  end.

Fixpoint string_existsb (p : ascii -> bool) (s : string) : bool :=
  match s with
  | EmptyString => false
  | String c s' => p c || string_existsb p s'
  end.

Fixpoint string_map (f : ascii -> ascii) (s : string) : string :=
  match s with
  | EmptyString => EmptyString
  | String c s' => String (f c) (string_map f s')
  end.

(** Go's slice expression [s[n:]]; [None] is the run-time panic Go raises
    when [n] exceeds the length. *)
Fixpoint slice_from (n : nat) (s : string) : option string :=
  match n, s with
  | O, _ => Some s
  | S _, EmptyString => None
  | S n', String _ s' => slice_from n' s'
  end.

(** ** Go's [strings] and [strconv] packages (the functions the sources call) *)

Module strings.

Definition ToLower (s : string) : string := string_map lower_char s.
Definition ToUpper (s : string) : string := string_map upper_char s.

(** [isSeparator] of package [strings]: on ASCII, everything except letters,
    digits and the underscore separates words. *)
Definition isSeparator (c : ascii) : bool :=
  is_ascii c && negb (is_alnum c || is_underscore c).

Fixpoint title_from (prev_sep : bool) (s : string) : string :=
  match s with
  | EmptyString => EmptyString
  | String c s' =>
      String (if prev_sep then upper_char c else c)
             (title_from (isSeparator c) s')
  end.

(** [strings.Title]: the first letter of every word is upper-cased; the scan
    starts as if a space had been read. *)
Definition Title (s : string) : string := title_from true s.

(** [strings.TrimLeft s cutset]. *)
Fixpoint TrimLeft (s cutset : string) : string :=
  match s with
  | EmptyString => EmptyString
  | String c s' =>
      if string_existsb (Ascii.eqb c) cutset then TrimLeft s' cutset else s
  end.

(** [strings.Index s substr]: the byte offset of the first occurrence, or
    [-1]. *)
Definition Index (s substr : string) : Z :=
  match String.index 0 substr s with
  | Some i => Z.of_nat i
  | None => (-1)%Z
  end.

(** [strings.Split s sep] for a separator that is not empty: [cur] is the
    piece being read, [skip] the bytes of a separator still to pass over. *)
Fixpoint split_from (sep : string) (skip : nat) (cur s : string)
  : list string :=
  match s with
  | EmptyString => [cur]
  | String c s' =>
      match skip with
      | S k => split_from sep k cur s'
      | O =>
          if String.prefix sep s
          then cur :: split_from sep (length sep - 1) EmptyString s'
          else split_from sep O (cur ++ String c EmptyString) s'
      end
  end.

Definition Split (s sep : string) : list string :=
  split_from sep 0 EmptyString s.

(** [strings.Join elems sep]. *)
Definition Join (elems : list string) (sep : string) : string :=
  String.concat sep elems.

End strings.

Module strconv.
(** [strconv.Itoa]: decimal, with a leading minus sign for negatives. *)
Definition Itoa (i : Z) : string := NilEmpty.string_of_int (Z.to_int i).
End strconv.

(** ** Package [token]: the intermediate model *)

(** Modelled from the spec: the declarations of package [token] are not among
    the sources; the records below carry exactly the fields that the printer
    and its template read ([Name], [Type], [In], [Out], [Arg], [Read], [Write],
    [Args], [Methods], [Properties], [Signals], [Annotations]).  A pointer to a
    struct is modelled by the struct it points to. *)
Module token.

Module Annotation.
Record t := mk { Name : string; Value : string }.
End Annotation.

Module Arg.
Record t := mk { Name : string; Type_ : string }.
End Arg.

Module Method.
Record t := mk {
  Name : string;
  In_ : list Arg.t;
  Out : list Arg.t;
  Annotations : list Annotation.t }.
End Method.

Module Property.
Record t := mk {
  Name : string;
  Arg : Arg.t;
  Read : bool;
  Write : bool;
  Annotations : list Annotation.t }.
End Property.

Module Signal.
Record t := mk {
  Name : string;
  Args : list Arg.t;
  Annotations : list Annotation.t }.
End Signal.

Module Interface.
Record t := mk {
  Name : string;
  Methods : list Method.t;
  Properties : list Property.t;
  Signals : list Signal.t;
  Annotations : list Annotation.t }.
End Interface.

End token.

(** The 25 keywords of Go, as listed in [keywords] of arg.go; they are also
    the tokens for which [go/token]'s [Lookup(s).IsKeyword()] answers true. *)
Definition keywords : list string :=
  [ "break"; "default"; "func"; "interface"; "select";
    "case"; "defer"; "go"; "map"; "struct";
    "chan"; "else"; "goto"; "package"; "switch";
    "const"; "fallthrough"; "if"; "range"; "type";
    "continue"; "for"; "import"; "return"; "var" ].

(** ** arg.go: the legacy argument deriver (package dbusgen) *)

Module dbusgen.

(** [varRegexp = "_([a-zA-Z0-9])"] with [ReplaceAllStringFunc]: every
    leftmost, non-overlapping match (an underscore and the letter or digit
    after it) is replaced by [f] of the matched text. *)
Fixpoint varRegexp_ReplaceAllStringFunc (f : string -> string) (s : string)
  : string :=
  match s with
  | EmptyString => EmptyString
  | String c t =>
      match t with
      | String d s' =>
          if is_underscore c && is_alnum d
          then f (String c (String d EmptyString))
                 ++ varRegexp_ReplaceAllStringFunc f s'
          else String c (varRegexp_ReplaceAllStringFunc f t)
      | EmptyString => String c EmptyString
      end
  end.

Fixpoint isKeyword_from (ks : list string) (s : string) : bool :=
  match ks with
  | [] => false
  | k :: ks' => if String.eqb s k then true else isKeyword_from ks' s
  end.

Definition isKeyword (s : string) : bool := isKeyword_from keywords s.

(** The [name] field of the [arg] that [newArg] returns.  (The [kind] field
    comes from [newSig], which is not part of the sources.) *)
Definition newArg_name (identifier prefix : string) (i : Z) : string :=
  match identifier with
  | EmptyString => prefix ++ strconv.Itoa i
  | String c tail =>
      if isKeyword identifier then prefix ++ strings.Title identifier
      else strings.ToLower (String c EmptyString)
           ++ varRegexp_ReplaceAllStringFunc
                (fun s => strings.Title (substring 1 (length s - 1) s)) tail
  end.

End dbusgen.

(** ** Errors and the Go libraries behind the printer *)

Inductive error : Type :=
| errors_New (msg : string)   (* errors.New(msg) *)
| exec_panic (fn : string)    (* text/template: the called function panicked *)
| foreign (msg : string).     (* an error value of go/parser or go/format *)

Inductive result (A : Type) : Type :=
| Ok (a : A)
| Err (e : error).
Arguments Ok {A} a.
Arguments Err {A} e.

(** A strict weak order given as a boolean [less], the contract under which
    package [sort] promises a sorted slice. *)
Definition strict_weak {A : Type} (less : A -> A -> bool) : Prop :=
  (forall x y, less x y = true -> less y x = false) /\
  (forall x y z, less y x = false -> less z y = false -> less z x = false).

(** After sorting, no element is [less] than one that precedes it. *)
Definition sorted_by {A : Type} (less : A -> A -> bool) (l : list A) : Prop :=
  StronglySorted (fun x y => less y x = false) l.

(** [sort.Slice]: the slice is rearranged in place into an ordering that is
    sorted for [less]; the sort is not guaranteed to be stable, so the contract
    fixes no more than that. *)
Class Sorter : Type := {
  sort_Slice : forall A : Type, (A -> A -> bool) -> list A -> list A;
  sort_Slice_perm : forall A less (l : list A),
      Permutation l (sort_Slice A less l);
  sort_Slice_sorted : forall A less (l : list A),
      strict_weak less -> sorted_by less (sort_Slice A less l)
}.
Arguments sort_Slice {_} {A} less l.

(** [go/parser.ParseFile] and [go/format.Node]: the front end of the host
    language, used as the validation step.  [format_Node] gives the text it
    writes and the error it returns. *)
Class GoFrontend : Type := {
  ast_File : Type;
  goparser_ParseFile : string -> result ast_File;
  goformat_Node : ast_File -> string * option error
}.

(** The algorithm package [sort] runs on short slices (of at most six
    elements in every release, of at most twelve since Go 1.19): insertion
    sort, each element swapped leftwards while it is [less] than its left
    neighbour. *)
Module insertion.

(** [rp] is the sorted part in reverse (nearest neighbour first). *)
Fixpoint sift {A : Type} (less : A -> A -> bool) (x : A) (rp : list A)
  : list A :=
  match rp with
  | [] => [x]
  | y :: rest => if less x y then y :: sift less x rest else x :: rp
  end.

Definition insertionSort {A : Type} (less : A -> A -> bool) (l : list A)
  : list A :=
  rev (fold_left (fun rp x => sift less x rp) l []).

End insertion.

(** ** printer.go *)

Module printer.
Import token.

Record printer : Type := mk_printer {
  pkgName : string;
  gofmt : bool;
  prefixes : list string
}.

(** A [PrintOption] is a function that updates the printer. *)
Definition PrintOption : Type := printer -> printer.


Definition WithGofmt (enable : bool) : PrintOption :=
  fun p => mk_printer (pkgName p) enable (prefixes p).

Definition WithPrefixes (pfx : list string) : PrintOption :=
  fun p => mk_printer (pkgName p) (gofmt p) pfx.

(** [identRegexp = "^[a-zA-Z][a-zA-Z0-9_]*$"], [MatchString]. *)
Definition identRegexp_MatchString (s : string) : bool :=
  match s with
  | EmptyString => false
  | String c s' =>
      is_letter c
      && string_forallb (fun d => is_alnum d || is_underscore d) s'
  end.

(** [gotoken.Lookup(s).IsKeyword()]. *)
Definition isKeyword (s : string) : bool :=
  existsb (String.eqb s) keywords.

(** [ifaceRegexp = "[._][a-zA-Z0-9]"] with [ReplaceAllStringFunc]. *)
Fixpoint ifaceRegexp_ReplaceAllStringFunc (f : string -> string) (s : string)
  : string :=
  match s with
  | EmptyString => EmptyString
  | String c t =>
      match t with
      | String d s' =>
          if (Ascii.eqb c "." || is_underscore c) && is_alnum d
          then f (String c (String d EmptyString))
                 ++ ifaceRegexp_ReplaceAllStringFunc f s'
          else String c (ifaceRegexp_ReplaceAllStringFunc f t)
      | EmptyString => String c EmptyString
      end
  end.

(** [varRegexp = "_+[a-zA-Z0-9]"] with [ReplaceAllStringFunc]; [run] is the
    run of underscores read so far and not yet written. *)
Fixpoint varRegexp_replace_from (f : string -> string) (run s : string)
  : string :=
  match s with
  | EmptyString => run
  | String c s' =>
      if is_underscore c
      then varRegexp_replace_from f (run ++ String c EmptyString) s'
      else
        match run with
        | EmptyString => String c (varRegexp_replace_from f EmptyString s')
        | String _ _ =>
            if is_alnum c
            then f (run ++ String c EmptyString)
                   ++ varRegexp_replace_from f EmptyString s'
            else run ++ String c (varRegexp_replace_from f EmptyString s')
        end
  end.

Definition varRegexp_ReplaceAllStringFunc (f : string -> string) (s : string)
  : string :=
  varRegexp_replace_from f EmptyString s.

(** The last byte of a string, [None] on the empty string. *)
Fixpoint last_byte (s : string) : option ascii :=
  match s with
  | EmptyString => None
  | String c EmptyString => Some c
  | String _ s' => last_byte s'
  end.

(** [s[:len(s)-1]]. *)
Definition drop_last (s : string) : string :=
  substring 0 (length s - 1) s.

(** The loop over [p.prefixes] in [ifaceType]; [None] is a run-time panic
    (indexing the empty prefix, or slicing past the end of the name). *)
Fixpoint strip_prefixes (name : string) (pfx : list string)
  : option string :=
  match pfx with
  | [] => Some name
  | prefix :: rest =>
      match last_byte prefix with
      | None => None
      | Some c =>
          let prefix := if Ascii.eqb c "." then drop_last prefix
                        else prefix in
          let i := strings.Index name prefix in
          if (i =? -1)%Z then strip_prefixes name rest
          else slice_from (Z.to_nat (i + Z.of_nat (length prefix) + 1)) name
      end
  end.

Definition ifaceType (p : printer) (iface : Interface.t) : option string :=
  match strip_prefixes (Interface.Name iface) (prefixes p) with
  | None => None
  | Some name =>
      let name := strings.Title name in
      if isKeyword name then Some name
      else Some (ifaceRegexp_ReplaceAllStringFunc
                   (fun s => "_" ++ strings.ToUpper
                                      (substring 1 (length s - 1) s))
                   name)
  end.

Definition ifaceNewType (p : printer) (iface : Interface.t)
  : option string :=
  option_map (fun t => "New" ++ t) (ifaceType p iface).

Definition ifaceNameConst (p : printer) (iface : Interface.t)
  : option string :=
  option_map (fun t => "Interface" ++ t) (ifaceType p iface).

Definition ifaceHasMethod (p : printer) (iface : Interface.t) (name : string)
  : bool :=
  existsb (fun method => String.eqb (Method.Name method) name)
          (Interface.Methods iface).

Definition methodType (p : printer) (method : Method.t) : string :=
  strings.Title (Method.Name method).

Definition propType (p : printer) (prop : Property.t) : string :=
  strings.Title (Property.Name prop).

Definition propGetType (p : printer) (prop : Property.t) : string :=
  "Get" ++ propType p prop.

Definition propSetType (p : printer) (prop : Property.t) : string :=
  "Set" ++ propType p prop.

Fixpoint propNeedsAccessor_from (methods : list Method.t) (name : string)
  : bool :=
  match methods with
  | [] => true
  | method :: rest =>
      if String.eqb (Method.Name method) name then false
      else propNeedsAccessor_from rest name
  end.

Definition propNeedsAccessor (p : printer) (iface : Interface.t)
           (name : string) : bool :=
  propNeedsAccessor_from (Interface.Methods iface) name.

Definition propNeedsSet (p : printer) (iface : Interface.t)
           (prop : Property.t) : bool :=
  if negb (Property.Write prop) then false
  else propNeedsAccessor p iface (propSetType p prop).

Definition propNeedsGet (p : printer) (iface : Interface.t)
           (prop : Property.t) : bool :=
  if negb (Property.Read prop) then false
  else propNeedsAccessor p iface (propGetType p prop).

Definition signalType (p : printer) (iface : Interface.t) (signal : Signal.t)
  : option string :=
  option_map (fun t => t ++ "_" ++ strings.Title (Signal.Name signal)
                         ++ "Signal")
             (ifaceType p iface).

Definition signalBodyType (p : printer) (iface : Interface.t)
           (signal : Signal.t) : option string :=
  option_map (fun t => t ++ "Body") (signalType p iface signal).

Definition argName (p : printer) (arg : Arg.t) (prefix : string) (i : Z)
           (export : bool) : string :=
  let name :=
    match Arg.Name arg with
    | EmptyString => prefix ++ strconv.Itoa i
    | String c tail =>
        strings.ToLower (String c EmptyString)
        ++ varRegexp_ReplaceAllStringFunc
             (fun s => strings.Title (strings.TrimLeft s "_")) tail
    end in
  let name := if export then strings.Title name else name in
  if isKeyword name then prefix ++ strings.Title name else name.

Definition propArgName (p : printer) (prop : Property.t) : string :=
  argName p (Property.Arg prop) "v" 0 false.

Fixpoint joinStoreArgs_from (p : printer) (i : Z) (args : list Arg.t)
  : string :=
  match args with
  | [] => EmptyString
  | arg :: rest =>
      (if (i =? 0)%Z then EmptyString else ",")
      ++ "&" ++ argName p arg "out" i false
      ++ joinStoreArgs_from p (i + 1) rest
  end.

Definition joinStoreArgs (p : printer) (args : list Arg.t) : string :=
  joinStoreArgs_from p 0 args.

Fixpoint joinArgs_from (p : printer) (i : Z) (args : list Arg.t)
         (separator : ascii) (suffix : string) (export : bool) : string :=
  match args with
  | [] => EmptyString
  | arg :: rest =>
      argName p arg suffix i export ++ " " ++ Arg.Type_ arg
      ++ String separator (joinArgs_from p (i + 1) rest separator suffix
                                         export)
  end.

Definition joinArgs (p : printer) (args : list Arg.t) (separator : ascii)
           (suffix : string) (export : bool) : string :=
  joinArgs_from p 0 args separator suffix export.

Definition joinSignalArgs (p : printer) (sig : Signal.t) : string :=
  joinArgs p (Signal.Args sig) ";" "v" true.

Definition joinMethodInArgs (p : printer) (method : Method.t) : string :=
  joinArgs p (Method.In_ method) "," "in" false.

Definition joinMethodOutArgs (p : printer) (method : Method.t) : string :=
  joinArgs p (Method.Out method) "," "out" false.

Fixpoint joinArgNames_from (p : printer) (i : Z) (args : list Arg.t)
  : string :=
  match args with
  | [] => EmptyString
  | arg :: rest =>
      (if (i =? 0)%Z then EmptyString else ",")
      ++ argName p arg "in" i false
      ++ joinArgNames_from p (i + 1) rest
  end.

Definition joinArgNames (p : printer) (args : list Arg.t) : string :=
  joinArgNames_from p 0 args.

(** *** The template engine

    Executing a template appends text to a buffer from left to right and
    stops at the first action that fails. *)

Fixpoint emit (parts : list (result string)) : result string :=
  match parts with
  | [] => Ok EmptyString
  | part :: rest =>
      match part with
      | Err e => Err e
      | Ok s =>
          match emit rest with
          | Err e => Err e
          | Ok t => Ok (s ++ t)
          end
      end
  end.

(** Literal template text, and the printing of a string value. *)
Definition txt (s : string) : result string := Ok s.

(** A call of a function of the [FuncMap]; a panic inside it ends the
    execution, and [text/template] hands the panic back as the error of
    [Execute]. *)
Definition call (fn : string) (r : option string) : result string :=
  match r with
  | Some s => Ok s
  | None => Err (exec_panic fn)
  end.

(** [{{ range $x := l }} body {{ end }}]. *)
Definition range {A : Type} (l : list A) (body : A -> result string)
  : result string :=
  emit (map body l).

(** [{{ range $i, $x := l }} body {{ end }}]. *)
Fixpoint range_from {A : Type} (i : Z) (l : list A)
         (body : Z -> A -> result string) : list (result string) :=
  match l with
  | [] => []
  | x :: rest => body i x :: range_from (i + 1) rest body
  end.

Definition range_i {A : Type} (l : list A) (body : Z -> A -> result string)
  : result string :=
  emit (range_from 0 l body).

(** [{{ if l }} body {{ end }}] on a slice: true when it is not empty. *)
Definition if_nonempty {A : Type} (l : list A) (body : result string)
  : result string :=
  match l with
  | [] => Ok EmptyString
  | _ :: _ => body
  end.

Definition if_ (b : bool) (body : result string) : result string :=
  if b then body else Ok EmptyString.

Record tmplContext : Type := mk_tmplContext {
  PackageName : string;
  Interfaces : list Interface.t
}.

(** *** [srcTemplate], block by block *)

(** [{{ define "annotations" }}]. *)
Definition tmpl_annotations (annotations : list Annotation.t)
  : result string :=
  range annotations (fun annotation =>
    emit [ txt "// @"; txt (Annotation.Name annotation);
           txt " = "; txt (Annotation.Value annotation) ]).

(** The comment that lists the members of one interface. *)
Definition tmpl_summary (iface : Interface.t) : result string :=
  emit [
    txt (nl ++ "// "); txt (Interface.Name iface);
    if_nonempty (Interface.Methods iface) (emit [
      txt (nl ++ "//   Methods");
      range (Interface.Methods iface) (fun method =>
        emit [ txt (nl ++ "//     "); txt (Method.Name method) ]) ]);
    if_nonempty (Interface.Properties iface) (emit [
      txt (nl ++ "//   Properties");
      range (Interface.Properties iface) (fun prop =>
        emit [ txt (nl ++ "//     "); txt (Property.Name prop) ]) ]);
    if_nonempty (Interface.Signals iface) (emit [
      txt (nl ++ "//   Signals");
      range (Interface.Signals iface) (fun signal =>
        emit [ txt (nl ++ "//     "); txt (Signal.Name signal) ]) ]);
    txt (nl ++ "//") ].

Definition tmpl_preamble : string :=
  nl ++ nl ++ "import (" ++ nl ++ tab ++ dq ++ "log" ++ dq ++ nl ++ nl
  ++ tab ++ dq ++ "github.com/godbus/dbus" ++ dq ++ nl ++ ")" ++ nl ++ nl
  ++ "const (" ++ nl ++ tab ++ "methodPropertyGet = " ++ dq
  ++ "org.freedesktop.DBus.Properties.Get" ++ dq ++ nl ++ tab
  ++ "methodPropertySet = " ++ dq ++ "org.freedesktop.DBus.Properties.Set"
  ++ dq ++ nl ++ ")" ++ nl ++ nl
  ++ "// Avoid error caused by unused log import" ++ nl
  ++ "var _ = log.Printf" ++ nl ++ nl
  ++ "// Interface is a DBus interface implementation." ++ nl
  ++ "type Interface interface {" ++ nl ++ tab ++ "iface() string" ++ nl
  ++ "}" ++ nl ++ nl
  ++ "// LookupInterface returns an interface for the named object." ++ nl
  ++ "func LookupInterface(object dbus.BusObject, iface string) Interface {"
  ++ nl ++ tab ++ "switch iface {".

Definition tmpl_lookup_case (p : printer) (iface : Interface.t)
  : result string :=
  emit [
    txt (nl ++ tab ++ "case ");
    call "ifaceNameConst" (ifaceNameConst p iface);
    txt (":" ++ nl ++ tab ++ tab ++ "return New");
    call "ifaceType" (ifaceType p iface);
    txt "(object)" ].

Definition tmpl_signal_intro : string :=
  nl ++ tab ++ "default:" ++ nl ++ tab ++ tab ++ "return nil" ++ nl ++ tab
  ++ "}" ++ nl ++ "}" ++ nl ++ nl
  ++ "// Signal is a common interface for all signals." ++ nl
  ++ "type Signal interface {" ++ nl ++ tab ++ "Name()      string" ++ nl
  ++ tab ++ "Interface() string" ++ nl ++ tab ++ "Sender()    string" ++ nl
  ++ tab ++ "Path()      dbus.ObjectPath" ++ nl ++ "}" ++ nl ++ nl
  ++ "// LookupSignal converts the given raw DBus signal into typed one or returns nil."
  ++ nl ++ "func LookupSignal(signal *dbus.Signal) Signal {" ++ nl ++ tab
  ++ "switch signal.Name {".

Definition tmpl_signal_case (p : printer) (pkg : string)
           (iface : Interface.t) (signal : Signal.t) : result string :=
  emit [
    txt (nl ++ tab ++ "case ");
    call "ifaceNameConst" (ifaceNameConst p iface);
    txt (" + " ++ dq ++ "." ++ dq ++ " + " ++ dq);
    txt (Signal.Name signal);
    txt (dq ++ ":");
    range_i (Signal.Args signal) (fun i argument => emit [
      txt (nl ++ tab ++ tab ++ "v"); txt (strconv.Itoa i);
      txt ", ok := signal.Body["; txt (strconv.Itoa i);
      txt "].("; txt (Arg.Type_ argument);
      txt (")" ++ nl ++ tab ++ tab ++ "if !ok {" ++ nl ++ tab ++ tab ++ tab
           ++ "log.Printf(" ++ dq ++ "[");
      txt pkg;
      txt "] ";
      txt (argName p argument "v" i true);
      txt " is %T, not ";
      txt (Arg.Type_ argument);
      txt (dq ++ ", signal.Body["); txt (strconv.Itoa i);
      txt ("])" ++ nl ++ tab ++ tab ++ "}") ]);
    txt (nl ++ tab ++ tab ++ "return &");
    call "signalType" (signalType p iface signal);
    txt ("{" ++ nl ++ tab ++ tab ++ tab ++ "sender: signal.Sender," ++ nl
         ++ tab ++ tab ++ tab ++ "path:   signal.Path," ++ nl
         ++ tab ++ tab ++ tab ++ "Body: ");
    call "signalBodyType" (signalBodyType p iface signal);
    txt "{";
    range_i (Signal.Args signal) (fun i argument => emit [
      txt (nl ++ tab ++ tab ++ tab ++ tab);
      txt (argName p argument "v" i true);
      txt ": v"; txt (strconv.Itoa i);
      txt "," ]);
    txt (nl ++ tab ++ tab ++ tab ++ "}," ++ nl ++ tab ++ tab ++ "}") ].

Definition tmpl_consts_intro : string :=
  nl ++ tab ++ "default:" ++ nl ++ tab ++ tab ++ "return nil" ++ nl ++ tab
  ++ "}" ++ nl ++ "}" ++ nl ++ nl
  ++ "// AddMatchRule returns AddMatch rule for the given signal. " ++ nl
  ++ "func AddMatchRule(sig Signal) string {" ++ nl ++ tab ++ "return "
  ++ dq ++ "type='signal',interface='" ++ dq ++ " + sig.Interface() + "
  ++ dq ++ "',member='" ++ dq ++ " + sig.Name() + " ++ dq ++ "'" ++ dq ++ nl
  ++ "}" ++ nl ++ nl ++ "// Interface name constants." ++ nl ++ "const (".

Definition tmpl_const (p : printer) (iface : Interface.t) : result string :=
  emit [
    txt (nl ++ tab);
    call "ifaceNameConst" (ifaceNameConst p iface);
    txt (" = " ++ dq);
    txt (Interface.Name iface);
    txt dq ].

Definition tmpl_method (p : printer) (iface : Interface.t)
           (method : Method.t) : result string :=
  emit [
    txt (nl ++ "// "); txt (methodType p method);
    txt " calls "; txt (Interface.Name iface);
    txt "."; txt (Method.Name method);
    txt " method.";
    tmpl_annotations (Method.Annotations method);
    txt (nl ++ "func (o *");
    call "ifaceType" (ifaceType p iface);
    txt ") "; txt (methodType p method);
    txt "("; txt (joinMethodInArgs p method);
    txt ") ("; txt (joinMethodOutArgs p method);
    txt ("err error) {" ++ nl ++ tab ++ "err = o.object.Call(");
    call "ifaceNameConst" (ifaceNameConst p iface);
    txt (" + " ++ dq ++ "." ++ dq ++ " + " ++ dq);
    txt (Method.Name method);
    txt (dq ++ ", 0, "); txt (joinArgNames p (Method.In_ method));
    txt ").Store("; txt (joinStoreArgs p (Method.Out method));
    txt (")" ++ nl ++ tab ++ "return" ++ nl ++ "}" ++ nl) ].

Definition tmpl_getter (p : printer) (iface : Interface.t)
           (prop : Property.t) : result string :=
  emit [
    txt (nl ++ "// "); txt (propGetType p prop);
    txt " gets "; txt (Interface.Name iface);
    txt "."; txt (Property.Name prop);
    txt " property.";
    tmpl_annotations (Property.Annotations prop);
    txt (nl ++ "func (o *");
    call "ifaceType" (ifaceType p iface);
    txt ") "; txt (propGetType p prop);
    txt "() ("; txt (propArgName p prop);
    txt " "; txt (Arg.Type_ (Property.Arg prop));
    txt (", err error) {" ++ nl ++ tab
         ++ "err = o.object.Call(methodPropertyGet, 0, ");
    call "ifaceNameConst" (ifaceNameConst p iface);
    txt (", " ++ dq); txt (Property.Name prop);
    txt (dq ++ ").Store(&"); txt (propArgName p prop);
    txt (")" ++ nl ++ tab ++ "return" ++ nl ++ "}") ].

Definition tmpl_setter (p : printer) (iface : Interface.t)
           (prop : Property.t) : result string :=
  emit [
    txt (nl ++ "// "); txt (propSetType p prop);
    txt " sets "; txt (Interface.Name iface);
    txt "."; txt (Property.Name prop);
    txt " property.";
    tmpl_annotations (Property.Annotations prop);
    txt (nl ++ "func (o *");
    call "ifaceType" (ifaceType p iface);
    txt ") "; txt (propSetType p prop);
    txt "("; txt (propArgName p prop);
    txt " "; txt (Arg.Type_ (Property.Arg prop));
    txt (") error {" ++ nl ++ tab
         ++ "return o.object.Call(methodPropertySet, 0, ");
    call "ifaceNameConst" (ifaceNameConst p iface);
    txt (", " ++ dq); txt (Property.Name prop);
    txt (dq ++ ", "); txt (propArgName p prop);
    txt (").Store()" ++ nl ++ "}") ].

(** The body of [{{ range $prop := $iface.Properties }}]: the accessors
    are guarded by [propNeedsGet] and [propNeedsSet]. *)
Definition tmpl_property (p : printer) (iface : Interface.t)
           (prop : Property.t) : result string :=
  emit [
    if_ (propNeedsGet p iface prop) (tmpl_getter p iface prop);
    if_ (propNeedsSet p iface prop) (tmpl_setter p iface prop);
    txt nl ].

Definition tmpl_signal (p : printer) (iface : Interface.t)
           (signal : Signal.t) : result string :=
  emit [
    txt (nl ++ "// "); call "signalType" (signalType p iface signal);
    txt " represents "; txt (Interface.Name iface);
    txt "."; txt (Signal.Name signal);
    txt " signal.";
    tmpl_annotations (Signal.Annotations signal);
    txt (nl ++ "type "); call "signalType" (signalType p iface signal);
    txt (" struct {" ++ nl ++ tab ++ "sender string" ++ nl ++ tab
         ++ "path   dbus.ObjectPath" ++ nl ++ tab ++ "Body   ");
    call "signalBodyType" (signalBodyType p iface signal);
    txt (nl ++ "}" ++ nl ++ nl ++ "// Name returns the signal's name." ++ nl
         ++ "func (s *");
    call "signalType" (signalType p iface signal);
    txt (") Name() string {" ++ nl ++ tab ++ "return " ++ dq);
    txt (Signal.Name signal);
    txt (dq ++ nl ++ "}" ++ nl ++ nl
         ++ "// Interface returns the signal's interface." ++ nl
         ++ "func (s *");
    call "signalType" (signalType p iface signal);
    txt (") Interface() string {" ++ nl ++ tab ++ "return ");
    call "ifaceNameConst" (ifaceNameConst p iface);
    txt (nl ++ "}" ++ nl ++ nl
         ++ "// Sender returns the signal's sender unique name." ++ nl
         ++ "func (s *");
    call "signalType" (signalType p iface signal);
    txt (") Sender() string {" ++ nl ++ tab ++ "return s.sender" ++ nl ++ "}"
         ++ nl ++ nl ++ "// Path returns path that emitted the signal." ++ nl
         ++ "func (s *");
    call "signalType" (signalType p iface signal);
    txt (") Path() dbus.ObjectPath {" ++ nl ++ tab ++ "return s.path" ++ nl
         ++ "}" ++ nl ++ nl ++ "// ");
    call "signalBodyType" (signalBodyType p iface signal);
    txt (" is body container." ++ nl ++ "type ");
    call "signalBodyType" (signalBodyType p iface signal);
    txt (" struct {" ++ nl ++ tab);
    txt (joinSignalArgs p signal);
    txt (nl ++ "}" ++ nl) ].

(** The last [{{ range $iface := .Interfaces }}]: the binding of one
    interface. *)
Definition tmpl_iface (p : printer) (iface : Interface.t) : result string :=
  emit [
    txt (nl ++ "// "); call "ifaceNewType" (ifaceNewType p iface);
    txt " creates and allocates "; txt (Interface.Name iface);
    txt ("." ++ nl ++ "func "); call "ifaceNewType" (ifaceNewType p iface);
    txt "(object dbus.BusObject) *"; call "ifaceType" (ifaceType p iface);
    txt (" {" ++ nl ++ tab ++ "return &");
    call "ifaceType" (ifaceType p iface);
    txt ("{object}" ++ nl ++ "}" ++ nl ++ nl ++ "// ");
    call "ifaceType" (ifaceType p iface);
    txt " implements "; txt (Interface.Name iface);
    txt " D-Bus interface.";
    tmpl_annotations (Interface.Annotations iface);
    txt (nl ++ "type "); call "ifaceType" (ifaceType p iface);
    txt (" struct {" ++ nl ++ tab ++ "object dbus.BusObject" ++ nl ++ "}"
         ++ nl ++ nl ++ "// iface implements the Interface interface." ++ nl
         ++ "func (o *");
    call "ifaceType" (ifaceType p iface);
    txt (") iface() string {" ++ nl ++ tab ++ "return ");
    call "ifaceNameConst" (ifaceNameConst p iface);
    txt (nl ++ "}" ++ nl);
    range (Interface.Methods iface) (tmpl_method p iface);
    range (Interface.Properties iface) (tmpl_property p iface);
    txt nl;
    range (Interface.Signals iface) (tmpl_signal p iface) ].

(** [tmpl.Execute(&buf, ctx)] for [srcTemplate]: the rendered text, or the
    error of the first failing action. *)
Definition Execute (p : printer) (ctx : tmplContext) : result string :=
  emit [
    txt ("// Code generated by dbus-codegen-go. DO NOT EDIT." ++ nl ++ "//");
    range (Interfaces ctx) tmpl_summary;
    txt (nl ++ "package "); txt (PackageName ctx);
    txt tmpl_preamble;
    range (Interfaces ctx) (tmpl_lookup_case p);
    txt tmpl_signal_intro;
    range (Interfaces ctx) (fun iface =>
      range (Interface.Signals iface)
            (tmpl_signal_case p (PackageName ctx) iface));
    txt tmpl_consts_intro;
    range (Interfaces ctx) (tmpl_const p);
    txt (nl ++ ")");
    txt nl;
    range (Interfaces ctx) (tmpl_iface p) ].

(** *** [prepareIfaces] and [Print] *)

Section WithGo.
Context {srt : Sorter} {fe : GoFrontend}.

(** The body of the loop of [prepareIfaces]: the three member slices of
    one interface are sorted by name. *)
Definition sort_members (iface : Interface.t) : Interface.t :=
  Interface.mk
    (Interface.Name iface)
    (sort_Slice (fun a b => String.ltb (Method.Name a) (Method.Name b))
                (Interface.Methods iface))
    (sort_Slice (fun a b => String.ltb (Property.Name a)
                                       (Property.Name b))
                (Interface.Properties iface))
    (sort_Slice (fun a b => String.ltb (Signal.Name a) (Signal.Name b))
                (Interface.Signals iface))
    (Interface.Annotations iface).

(** [prepareIfaces] sorts the slice and the member slices of every
    interface in place; the value returned is the content of the caller's
    slice afterwards. *)
Definition prepareIfaces (p : printer) (ifaces : list Interface.t)
  : list Interface.t :=
  let ifaces :=
    sort_Slice (fun a b => String.ltb (Interface.Name a)
                                      (Interface.Name b)) ifaces in
  map sort_members ifaces.

(** What a call of [Print] leaves behind: the caller's interface slice,
    the content of the writer [out] (an in-memory buffer), and the error
    returned ([None] is [nil]). *)
Record outcome : Type := mk_outcome {
  model : list Interface.t;
  written : string;
  err : option error
}.

Definition configure (opts : list PrintOption) : printer :=
  fold_left (fun p opt => opt p) opts (mk_printer "dbusgen" true []).

Definition Print (out : string) (ifaces : list Interface.t)
           (opts : list PrintOption) : outcome :=
  let p := configure opts in
  if negb (identRegexp_MatchString (pkgName p))
  then mk_outcome ifaces out
                  (Some (errors_New "package name is not valid"))
  else if (List.length ifaces =? 0)%nat
  then mk_outcome ifaces out (Some (errors_New "no interfaces given"))
  else
    let ifaces := prepareIfaces p ifaces in
    match Execute p (mk_tmplContext (pkgName p) ifaces) with
    | Err e => mk_outcome ifaces out (Some e)
    | Ok buf =>
        match goparser_ParseFile buf with
        | Err e => mk_outcome ifaces out (Some e)
        | Ok file =>
            if gofmt p
            then let (text, e) := goformat_Node file in
                 mk_outcome ifaces (out ++ text) e
            else mk_outcome ifaces (out ++ buf) None
        end
    end.

End WithGo.

End printer.

(** ** cmd/dbus-codegen-go/main.go *)

Module main.
Import token.

(** The inner loop of [merge]: is there an interface of that name in
    [curr]? *)
Fixpoint found_in (curr : list Interface.t) (name : string) : bool :=
  match curr with
  | [] => false
  | ifc :: rest =>
      if String.eqb (Interface.Name ifc) name then true
      else found_in rest name
  end.

(** [merge]: [curr] grows while [next] is scanned, so every later test
    sees the interfaces appended so far. *)
Fixpoint merge (curr next : list Interface.t) : list Interface.t :=
  match next with
  | [] => curr
  | ifn :: rest =>
      if found_in curr (Interface.Name ifn) then merge curr rest
      else merge (curr ++ [ifn])%list rest
  end.


(** [stringsFlag] is a [[]string] that the flag package fills. *)
Definition stringsFlag : Type := list string.

Definition stringsFlag_String (ss : stringsFlag) : string :=
  "[" ++ strings.Join ss ", " ++ "]".

(** [Set] appends the pieces of [arg] between commas, the empty ones left
    out; the value returned is the flag afterwards and the error ([nil]). *)
Definition stringsFlag_Set (ss : stringsFlag) (arg : string)
  : stringsFlag * option error :=
  (fold_left (fun ss s => match s with
                          | EmptyString => ss
                          | String _ _ => (ss ++ [s])%list
                          end)
             (strings.Split arg ",") ss,
   None).


Section Run.
Context {srt : Sorter} {fe : GoFrontend}.


End Run.

End main.

(** ** Vocabulary of the statements *)

(** The comparison the printer hands to [sort.Slice]: by name. *)
Definition by_key {A : Type} (key : A -> string) (a b : A) : bool :=
  String.ltb (key a) (key b).

Module model.
Import token.

(** Two interfaces that differ at most in the order of their members. *)
Definition same_members (a b : Interface.t) : Prop :=
  Interface.Name a = Interface.Name b /\
  Interface.Annotations a = Interface.Annotations b /\
  Permutation (Interface.Methods a) (Interface.Methods b) /\
  Permutation (Interface.Properties a) (Interface.Properties b) /\
  Permutation (Interface.Signals a) (Interface.Signals b).

(** Two interface sequences that hold the same interfaces, in any order and
    with the members of each in any order. *)
Definition shuffled (l1 l2 : list Interface.t) : Prop :=
  exists l, Permutation l1 l /\ Forall2 same_members l l2.

(** The invariant of the data model: member names are unique within an
    interface. *)
Definition members_unique (i : Interface.t) : Prop :=
  NoDup (map Method.Name (Interface.Methods i)) /\
  NoDup (map Property.Name (Interface.Properties i)) /\
  NoDup (map Signal.Name (Interface.Signals i)).

Definition members_sorted (i : Interface.t) : Prop :=
  sorted_by (by_key Method.Name) (Interface.Methods i) /\
  sorted_by (by_key Property.Name) (Interface.Properties i) /\
  sorted_by (by_key Signal.Name) (Interface.Signals i).

End model.

Module naming.

(** The interfaces of a given name. *)
Definition has_name (n : string) (i : token.Interface.t) : bool :=
  String.eqb (token.Interface.Name i) n.

(** The first interface of every name, in order. *)
Fixpoint first_of_each_name (l : list token.Interface.t)
  : list token.Interface.t :=
  match l with
  | [] => []
  | x :: rest =>
      x :: filter (fun y => negb (has_name (token.Interface.Name x) y))
                  (first_of_each_name rest)
  end.

(** The interfaces of [next] whose name does not occur in [curr]. *)
Definition not_in (curr : list token.Interface.t) (i : token.Interface.t)
  : bool :=
  negb (main.found_in curr (token.Interface.Name i)).

End naming.

Module ident.

(** A byte that may occur in an identifier: a letter, a digit, [_]. *)
Definition ident_char (c : ascii) : bool := is_alnum c || is_underscore c.

(** An identifier of Go written in ASCII: a letter or [_], then letters,
    digits and [_]. *)
Definition go_identifier (s : string) : bool :=
  match s with
  | EmptyString => false
  | String c s' =>
      (is_letter c || is_underscore c) && string_forallb ident_char s'
  end.

(** [k] underscores. *)
Fixpoint underscores (k : nat) : string :=
  match k with
  | O => EmptyString
  | S k' => String "_" (underscores k')
  end.

Definition no_underscore (s : string) : bool :=
  string_forallb (fun c => negb (is_underscore c)) s.

(** No two underscores in a row. *)
Fixpoint no_double_underscore (s : string) : bool :=
  match s with
  | EmptyString => true
  | String c t =>
      match t with
      | String d _ =>
          negb (is_underscore c && is_underscore d)
          && no_double_underscore t
      | EmptyString => true
      end
  end.

(** What [argName] does to the name after its first byte. *)
Definition camel (s : string) : string :=
  printer.varRegexp_ReplaceAllStringFunc
    (fun m => strings.Title (strings.TrimLeft m "_")) s.

(** The name after the first two rules of the deriver, before the export
    and reserved-word rules. *)
Definition raw_ident (name prefix : string) (i : Z) : string :=
  match name with
  | EmptyString => prefix ++ strconv.Itoa i
  | String c tail => String (lower_char c) (camel tail)
  end.





(** [name] with its first byte lower-cased ([strings.ToLower(name[:1]) +
    name[1:]]). *)
Definition lower_first (name : string) : string :=
  match name with
  | EmptyString => EmptyString
  | String c tail => String (lower_char c) tail
  end.

End ident.

Module wording.



End wording.

Module stripping.

(** A configured prefix without its trailing dot, as [ifaceType] uses it. *)
Definition trim_dot (prefix : string) : string :=
  match printer.last_byte prefix with
  | Some c => if Ascii.eqb c "." then printer.drop_last prefix else prefix
  | None => prefix
  end.

(** The second half of [ifaceType]: title case, then every [.] or [_]
    before a letter or digit becomes [_] and the character in upper case. *)
Definition exported_type (name : string) : string :=
  let name := strings.Title name in
  if printer.isKeyword name then name
  else printer.ifaceRegexp_ReplaceAllStringFunc
         (fun s => "_" ++ strings.ToUpper (substring 1 (length s - 1) s))
         name.

(** A prefix that is not empty and occurs nowhere in the name. *)
Definition absent (name prefix : string) : Prop :=
  prefix <> EmptyString
  /\ strings.Index name (trim_dot prefix) = (-1)%Z.

(** Following the spec's words: the first configured prefix that is a
    leading, dot-delimited prefix of the name is removed with its dot;
    other prefixes remove nothing. *)
Fixpoint spec_strip (name : string) (pfx : list string) : string :=
  match pfx with
  | [] => name
  | q :: rest =>
      if String.prefix (trim_dot q ++ ".") name
      then substring (length (trim_dot q) + 1) (length name) name
      else spec_strip name rest
  end.

End stripping.

Module layout.

(** The identifiers of an argument list, by position: the [i]-th argument
    is named by [argName] with index [i]. *)
Fixpoint names_from (p : printer.printer) (prefix : string) (export : bool)
         (i : Z) (args : list token.Arg.t) : list string :=
  match args with
  | [] => []
  | arg :: rest =>
      printer.argName p arg prefix i export
      :: names_from p prefix export (i + 1) rest
  end.

Definition names (p : printer.printer) (prefix : string) (export : bool)
           (args : list token.Arg.t) : list string :=
  names_from p prefix export 0 args.

(** One parameter declaration for every name and argument: the name, a
    space, the type, the separator. *)
Fixpoint declarations (separator : ascii) (ns : list string)
         (args : list token.Arg.t) : string :=
  match ns, args with
  | n :: ns', arg :: args' =>
      n ++ " " ++ token.Arg.Type_ arg
      ++ String separator (declarations separator ns' args')
  | _, _ => EmptyString
  end.

(** An interface name in which every byte is a letter, a digit, an
    underscore, or a dot that a letter or digit follows. *)
Fixpoint dotted (s : string) : bool :=
  match s with
  | EmptyString => true
  | String c t =>
      (if Ascii.eqb c "."
       then match t with
            | String d _ => is_alnum d
            | EmptyString => false
            end
       else ident.ident_char c)
      && dotted t
  end.

Definition unnamed (arg : token.Arg.t) : Prop :=
  token.Arg.Name arg = EmptyString.

End layout.

(** ** Sample interfaces *)

Module Examples.
Import token printer.

(** Two interfaces of one name, one of them with a method. *)
Definition twin_with_method : Interface.t :=
  Interface.mk "a" [Method.mk "M" [] [] []] [] [] [].
Definition twin_bare : Interface.t := Interface.mk "a" [] [] [] [].

Definition iface_a : Interface.t := Interface.mk "a" [] [] [] [].
Definition iface_b : Interface.t := Interface.mk "b" [] [] [] [].

(** An argument named with a hyphen: the rendered declaration
    [func (o *Foo_Org) Get(object-path string,) (err error)] is not Go. *)
Definition iface_hyphen_arg : Interface.t :=
  Interface.mk "foo.org"
               [Method.mk "Get" [Arg.mk "object-path" "string"] [] []]
               [] [] [].

End Examples.

(** * Verification *)

(** ** The order on names and the sorting contract *)

Section NameOrder.

Lemma ltb_asym (x y : string) : String.ltb x y = true -> String.ltb y x = false.
Proof.
  unfold String.ltb. rewrite (String.compare_antisym y x).
  destruct (String.compare x y); simpl; congruence.
Qed.

Lemma ltb_irrefl (x : string) : String.ltb x x = false.
Proof.
  destruct (String.ltb x x) eqn:E; [|reflexivity].
  pose proof (ltb_asym _ _ E). congruence.
Qed.

Lemma compare_lt_trans (x y z : string) :
  String.compare x y = Lt -> String.compare y z = Lt ->
  String.compare x z = Lt.
Proof.
  revert y z. induction x as [|a x IH]; intros [|b y] [|c z]; simpl;
    try congruence.
  destruct (Ascii.compare a b) eqn:Eab; try congruence;
    destruct (Ascii.compare b c) eqn:Ebc; try congruence; intros H1 H2.
  - apply Ascii.compare_eq_iff in Eab, Ebc. subst.
    assert (Ascii.compare c c = Eq) as ->.
    { destruct (Ascii.compare c c) eqn:E; auto;
        pose proof (Ascii.compare_antisym c c) as Ha; rewrite E in Ha;
        discriminate. }
    eauto.
  - apply Ascii.compare_eq_iff in Eab. subst. now rewrite Ebc.
  - apply Ascii.compare_eq_iff in Ebc. subst. now rewrite Eab.
  - unfold Ascii.compare in *. rewrite N.compare_lt_iff in *.
    assert (N_of_ascii a < N_of_ascii c)%N as Hac by lia.
    rewrite <- N.compare_lt_iff in Hac. now rewrite Hac.
Qed.

Lemma ltb_trans (x y z : string) :
  String.ltb x y = true -> String.ltb y z = true -> String.ltb x z = true.
Proof.
  unfold String.ltb.
  destruct (String.compare x y) eqn:E1; try discriminate.
  destruct (String.compare y z) eqn:E2; try discriminate.
  now rewrite (compare_lt_trans _ _ _ E1 E2).
Qed.

(** Two names neither of which is below the other are the same name. *)
Lemma ltb_total_eq (x y : string) :
  String.ltb x y = false -> String.ltb y x = false -> x = y.
Proof.
  unfold String.ltb. rewrite (String.compare_antisym y x).
  destruct (String.compare x y) eqn:E; simpl; try discriminate.
  intros _ _. now apply String.compare_eq_iff.
Qed.

Lemma ltb_negtrans (x y z : string) :
  String.ltb y x = false -> String.ltb z y = false -> String.ltb z x = false.
Proof.
  intros Hyx Hzy. destruct (String.ltb z x) eqn:Hzx; [|reflexivity].
  destruct (String.ltb x y) eqn:Hxy.
  - rewrite (ltb_trans _ _ _ Hzx Hxy) in Hzy. discriminate.
  - pose proof (ltb_total_eq _ _ Hxy Hyx). subst. congruence.
Qed.

Context {A : Type} (key : A -> string).

Lemma by_key_strict_weak : strict_weak (by_key key).
Proof.
  split; unfold by_key; intros.
  - now apply ltb_asym.
  - eapply ltb_negtrans; eauto.
Qed.

Lemma NoDup_key_inj (l : list A) (x y : A) :
  NoDup (map key l) -> In x l -> In y l -> key x = key y -> x = y.
Proof.
  induction l as [|a l IH]; simpl; [tauto|].
  intros Hnd [Hx|Hx] [Hy|Hy] Hk; inversion Hnd; subst; auto.
  - exfalso. apply H1. rewrite Hk. now apply in_map.
  - exfalso. apply H1. rewrite <- Hk. now apply in_map.
Qed.

(** With pairwise distinct keys there is one sorted arrangement only. *)
Lemma sorted_perm_unique (l1 l2 : list A) :
  NoDup (map key l1) -> Permutation l1 l2 ->
  sorted_by (by_key key) l1 -> sorted_by (by_key key) l2 -> l1 = l2.
Proof.
  revert l2. induction l1 as [|x l1 IH]; intros l2 Hnd Hp H1 H2.
  - now apply Permutation_nil in Hp.
  - destruct l2 as [|y l2].
    { apply Permutation_sym, Permutation_nil in Hp. discriminate. }
    assert (x = y) as ->.
    { assert (Hx : In x (y :: l2))
        by (eapply Permutation_in; [exact Hp|now left]).
      assert (Hy : In y (x :: l1))
        by (eapply Permutation_in; [apply Permutation_sym; exact Hp|now left]).
      destruct Hx as [Hx|Hx]; [congruence|].
      destruct Hy as [Hy|Hy]; [congruence|].
      inversion H1 as [|? ? _ F1]; inversion H2 as [|? ? _ F2]; subst.
      rewrite Forall_forall in F1, F2.
      apply (NoDup_key_inj (x :: l1)); simpl; auto.
      apply ltb_total_eq; [apply (F2 _ Hx)|apply (F1 _ Hy)]. }
    f_equal. apply IH.
    + now inversion Hnd.
    + eapply Permutation_cons_inv; eauto.
    + now inversion H1.
    + now inversion H2.
Qed.

End NameOrder.

(** ** Insertion sort meets the contract of [sort.Slice] *)

Section InsertionSort.
Import insertion.
Context {A : Type} (less : A -> A -> bool).

Lemma sift_perm (x : A) (rp : list A) : Permutation (x :: rp) (sift less x rp).
Proof.
  induction rp as [|y rp IH]; simpl; auto.
  destruct (less x y); auto.
  eapply perm_trans; [apply perm_swap|]. now constructor.
Qed.

Lemma fold_sift_perm (l acc : list A) :
  Permutation (l ++ acc)%list (fold_left (fun rp x => sift less x rp) l acc).
Proof.
  revert acc. induction l as [|x l IH]; intros acc; simpl; auto.
  eapply perm_trans; [|apply IH].
  eapply perm_trans; [apply Permutation_middle|].
  apply Permutation_app_head, sift_perm.
Qed.

Lemma insertionSort_perm (l : list A) : Permutation l (insertionSort less l).
Proof.
  unfold insertionSort. eapply perm_trans; [|apply Permutation_rev].
  pose proof (fold_sift_perm l []) as H. now rewrite app_nil_r in H.
Qed.

Hypothesis Hsw : strict_weak less.

Let rsorted := StronglySorted (fun a b : A => less a b = false).

Lemma sift_rsorted (x : A) (rp : list A) : rsorted rp -> rsorted (sift less x rp).
Proof.
  destruct Hsw as [Hasym Hneg].
  induction rp as [|y rp IH]; simpl; intros Hs.
  - repeat constructor.
  - inversion Hs as [|? ? Hs' Hall]; subst.
    destruct (less x y) eqn:E.
    + constructor; [now apply IH|].
      eapply Permutation_Forall; [apply sift_perm|].
      constructor; auto.
    + constructor; [exact Hs|]. constructor; [exact E|].
      rewrite Forall_forall in *. intros b Hb. eapply Hneg; eauto.
Qed.

Lemma fold_sift_rsorted (l acc : list A) :
  rsorted acc -> rsorted (fold_left (fun rp x => sift less x rp) l acc).
Proof.
  revert acc. induction l as [|x l IH]; intros acc Hs; simpl; auto.
  apply IH, sift_rsorted, Hs.
Qed.

Lemma rsorted_rev (l : list A) : rsorted l -> sorted_by less (rev l).
Proof.
  unfold sorted_by. induction l as [|x l IH]; simpl; intros Hs.
  - constructor.
  - inversion Hs as [|? ? Hs' Hall]; subst.
    specialize (IH Hs'). revert IH.
    assert (Hall' : Forall (fun b => less x b = false) (rev l))
      by (eapply Permutation_Forall; [apply Permutation_rev|exact Hall]).
    revert Hall'. generalize (rev l) as r. clear.
    induction r as [|b r IHr]; simpl; intros Hall IH.
    + repeat constructor.
    + inversion Hall; inversion IH; subst. constructor; auto.
      apply Forall_app. split; auto.
Qed.

Lemma insertionSort_sorted (l : list A) : sorted_by less (insertionSort less l).
Proof.
  apply rsorted_rev, fold_sift_rsorted. constructor.
Qed.

End InsertionSort.

(** Go's sort on short slices, as an instance of the contract. *)
#[local] Instance insertion_sorter : Sorter := {|
  sort_Slice := fun A less l => insertion.insertionSort less l;
  sort_Slice_perm := fun A less l => insertionSort_perm less l;
  sort_Slice_sorted := fun A less l H => insertionSort_sorted less H l
|}.

(** A front end that accepts every text and prints it back unchanged; it
    stands for the parser and the formatter wherever a statement does not
    depend on them. *)
#[local] Instance permissive_frontend : GoFrontend := {|
  ast_File := string;
  goparser_ParseFile := fun src => Ok src;
  goformat_Node := fun file => (file, None)
|}.

(** A front end whose parser rejects the text, as [go/parser] does on a
    syntax error. *)
#[local] Instance rejecting_frontend : GoFrontend := {|
  ast_File := string;
  goparser_ParseFile := fun _ => Err (foreign "syntax error");
  goformat_Node := fun file => (file, None)
|}.

(** ** [prepareIfaces]: what the in-place sort does to the model *)

Section Prepare.
Import token printer model.
Context {srt : Sorter}.

Lemma sort_by_key_perm {A : Type} (key : A -> string) (l : list A) :
  Permutation l (sort_Slice (fun a b => String.ltb (key a) (key b)) l).
Proof. apply sort_Slice_perm. Qed.

Lemma sort_by_key_sorted {A : Type} (key : A -> string) (l : list A) :
  sorted_by (by_key key)
            (sort_Slice (fun a b => String.ltb (key a) (key b)) l).
Proof. apply (sort_Slice_sorted A (by_key key)), by_key_strict_weak. Qed.

(** Sorting two arrangements of the same uniquely named members gives the
    same slice. *)
Lemma sort_by_key_canonical {A : Type} (key : A -> string) (l1 l2 : list A) :
  NoDup (map key l1) -> Permutation l1 l2 ->
  sort_Slice (fun a b => String.ltb (key a) (key b)) l1
  = sort_Slice (fun a b => String.ltb (key a) (key b)) l2.
Proof.
  intros Hnd Hp. apply (sorted_perm_unique key).
  - eapply Permutation_NoDup; [|exact Hnd].
    apply Permutation_map, sort_by_key_perm.
  - eapply perm_trans; [apply Permutation_sym, sort_by_key_perm|].
    eapply perm_trans; [exact Hp|apply sort_by_key_perm].
  - apply sort_by_key_sorted.
  - apply sort_by_key_sorted.
Qed.

Lemma sort_members_same (a b : Interface.t) :
  members_unique a -> same_members a b -> sort_members a = sort_members b.
Proof.
  intros (Hm & Hp & Hs) (Hn & Ha & Pm & Pp & Ps). unfold sort_members.
  rewrite Hn, Ha.
  rewrite (sort_by_key_canonical Method.Name _ _ Hm Pm).
  rewrite (sort_by_key_canonical Property.Name _ _ Hp Pp).
  rewrite (sort_by_key_canonical Signal.Name _ _ Hs Ps).
  reflexivity.
Qed.

Lemma sort_members_shuffles (i : Interface.t) : same_members i (sort_members i).
Proof.
  unfold same_members, sort_members; simpl.
  repeat split; apply sort_by_key_perm.
Qed.

Lemma sort_members_sorted (i : Interface.t) : members_sorted (sort_members i).
Proof.
  unfold members_sorted, sort_members; simpl.
  repeat split; apply sort_by_key_sorted.
Qed.

Lemma sorted_by_name_map (f : Interface.t -> Interface.t) (l : list Interface.t) :
  (forall i, Interface.Name (f i) = Interface.Name i) ->
  sorted_by (by_key Interface.Name) l ->
  sorted_by (by_key Interface.Name) (map f l).
Proof.
  intros Hf. unfold sorted_by, by_key.
  induction 1 as [|x l Hs IH Hall]; simpl; constructor; auto.
  rewrite Forall_forall in *. intros y Hy.
  apply in_map_iff in Hy as (z & <- & Hz). rewrite !Hf. auto.
Qed.

Lemma prepareIfaces_shuffled (p : printer.printer) (l : list Interface.t) :
  shuffled l (prepareIfaces p l).
Proof.
  exists (sort_Slice (by_key Interface.Name) l). split.
  - apply sort_Slice_perm.
  - unfold prepareIfaces. fold (@by_key Interface.t Interface.Name).
    induction (sort_Slice (by_key Interface.Name) l); simpl; constructor;
      auto using sort_members_shuffles.
Qed.

Lemma prepareIfaces_sorted (p : printer.printer) (l : list Interface.t) :
  sorted_by (by_key Interface.Name) (prepareIfaces p l)
  /\ Forall members_sorted (prepareIfaces p l).
Proof.
  unfold prepareIfaces. split.
  - apply sorted_by_name_map; [reflexivity|].
    apply (sort_by_key_sorted Interface.Name).
  - apply Forall_forall. intros i Hi.
    apply in_map_iff in Hi as (j & <- & _). apply sort_members_sorted.
Qed.

Lemma map_sort_members_same (l l2 : list Interface.t) :
  Forall members_unique l -> Forall2 same_members l l2 ->
  map sort_members l = map sort_members l2.
Proof.
  intros Hu H. induction H as [|a b l l2 Hab H IH]; simpl; auto.
  inversion Hu; subst. f_equal; auto using sort_members_same.
Qed.

(** [prepareIfaces] forgets the order in which uniquely named interfaces
    and members arrive. *)
Lemma prepareIfaces_canonical (p : printer.printer) (l1 l2 : list Interface.t) :
  NoDup (map Interface.Name l1) -> Forall members_unique l1 ->
  shuffled l1 l2 -> prepareIfaces p l1 = prepareIfaces p l2.
Proof.
  intros Hnd Hu (l & Hp & Hf).
  pose proof (prepareIfaces_sorted p l1) as [S1 _].
  pose proof (prepareIfaces_sorted p l2) as [S2 _].
  apply (sorted_perm_unique Interface.Name); auto.
  - unfold prepareIfaces. rewrite map_map. simpl.
    eapply Permutation_NoDup; [|exact Hnd].
    apply Permutation_map, (sort_by_key_perm Interface.Name).
  - unfold prepareIfaces.
    eapply perm_trans;
      [apply Permutation_map, Permutation_sym,
         (sort_by_key_perm Interface.Name)|].
    eapply perm_trans; [apply Permutation_map; exact Hp|].
    rewrite (map_sort_members_same l l2); auto.
    + apply Permutation_map, (sort_by_key_perm Interface.Name).
    + eapply Permutation_Forall; eauto.
Qed.

Lemma shuffled_length (l1 l2 : list Interface.t) :
  shuffled l1 l2 -> List.length l1 = List.length l2.
Proof.
  intros (l & Hp & Hf). rewrite (Permutation_length Hp). clear Hp.
  induction Hf; simpl; congruence.
Qed.

Lemma shuffled_refl (l : list Interface.t) : shuffled l l.
Proof.
  exists l. split; auto. induction l; constructor; auto.
  unfold same_members. repeat split; auto.
Qed.

End Prepare.

(** ** [Print] *)

Section PrintFacts.
Import token printer model.
Context {srt : Sorter} {fe : GoFrontend}.



(** Past the two checks, [Print] sorts, renders, parses and only then
    looks at the [gofmt] switch. *)
Lemma Print_checked (out : string) (ifaces : list Interface.t)
      (opts : list PrintOption) :
  identRegexp_MatchString (pkgName (configure opts)) = true ->
  ifaces <> [] ->
  Print out ifaces opts =
  let p := configure opts in
  let sorted := prepareIfaces p ifaces in
  match Execute p (mk_tmplContext (pkgName p) sorted) with
  | Err e => mk_outcome sorted out (Some e)
  | Ok buf =>
      match goparser_ParseFile buf with
      | Err e => mk_outcome sorted out (Some e)
      | Ok file =>
          if gofmt p
          then let (text, e) := goformat_Node file in
               mk_outcome sorted (out ++ text) e
          else mk_outcome sorted (out ++ buf) None
      end
  end.
Proof.
  intros Hid Hne. unfold Print. rewrite Hid. simpl.
  destruct ifaces; [congruence|reflexivity].
Qed.

(** With formatting off and a text the parser accepts, the rendered text
    is written as it is. *)
Lemma Print_raw_when_parsed (out : string) (ifaces : list Interface.t)
      (opts : list PrintOption) (buf : string) (file : ast_File) :
  gofmt (configure opts) = false ->
  identRegexp_MatchString (pkgName (configure opts)) = true ->
  ifaces <> [] ->
  Execute (configure opts)
          (mk_tmplContext (pkgName (configure opts))
                          (prepareIfaces (configure opts) ifaces)) = Ok buf ->
  goparser_ParseFile buf = Ok file ->
  written (Print out ifaces opts) = out ++ buf
  /\ err (Print out ifaces opts) = None.
Proof.
  intros Hg Hid Hne Hex Hparse. rewrite Print_checked by assumption.
  simpl. rewrite Hex, Hparse, Hg. auto.
Qed.

End PrintFacts.

(** C1 (as stated, refuted): two interfaces of the same name, given in the
    two possible orders, are both left in the order given by Go's sort on
    short slices, and the two rendered texts differ. *)
Lemma C1_same_name_order_matters :
  model.shuffled [Examples.twin_with_method; Examples.twin_bare]
                 [Examples.twin_bare; Examples.twin_with_method]
  /\ printer.written
       (@printer.Print insertion_sorter permissive_frontend EmptyString
          [Examples.twin_with_method; Examples.twin_bare]
          [printer.WithGofmt false])
     <> printer.written
          (@printer.Print insertion_sorter permissive_frontend EmptyString
             [Examples.twin_bare; Examples.twin_with_method]
             [printer.WithGofmt false]).
Proof.
  split.
  - exists [Examples.twin_bare; Examples.twin_with_method]. split.
    + apply perm_swap.
    + repeat constructor.
  - apply String.eqb_neq. vm_compute. reflexivity.
Qed.

(** C1 (amended): when interface names are pairwise distinct and member names
    are pairwise distinct within every interface, [Print] writes the same text
    and returns the same error for any two arrangements of the interfaces and
    of their members, whatever [sort.Slice] does within its contract. *)
Theorem C1_print_order_independent
        (srt : Sorter) (fe : GoFrontend) (out : string)
        (opts : list printer.PrintOption)
        (ifaces1 ifaces2 : list token.Interface.t) :
  NoDup (map token.Interface.Name ifaces1) ->
  Forall model.members_unique ifaces1 ->
  model.shuffled ifaces1 ifaces2 ->
  printer.written (printer.Print out ifaces1 opts)
  = printer.written (printer.Print out ifaces2 opts)
  /\ printer.err (printer.Print out ifaces1 opts)
     = printer.err (printer.Print out ifaces2 opts).
Proof.
  intros Hnd Hu Hsh. unfold printer.Print.
  rewrite <- (shuffled_length _ _ Hsh).
  rewrite <- (prepareIfaces_canonical _ _ _ Hnd Hu Hsh).
  destruct (negb _); [auto|].
  destruct (_ =? _)%nat; auto.
Qed.

Lemma C1_print_order_independent_witness :
  printer.written
    (@printer.Print insertion_sorter permissive_frontend EmptyString
       [Examples.iface_b; Examples.iface_a] [])
  = printer.written
      (@printer.Print insertion_sorter permissive_frontend EmptyString
         [Examples.iface_a; Examples.iface_b] [])
  /\ printer.err
       (@printer.Print insertion_sorter permissive_frontend EmptyString
          [Examples.iface_b; Examples.iface_a] [])
     = printer.err
         (@printer.Print insertion_sorter permissive_frontend EmptyString
            [Examples.iface_a; Examples.iface_b] []).
Proof.
  apply C1_print_order_independent.
  - simpl. repeat constructor; simpl; intuition discriminate.
  - repeat constructor.
  - exists [Examples.iface_a; Examples.iface_b]. split.
    + apply perm_swap.
    + repeat constructor.
Defined.



(** C8 (as stated, refuted): the caller's slice comes back reordered. *)
Lemma C8_print_reorders_model :
  printer.model
    (@printer.Print insertion_sorter permissive_frontend EmptyString
       [Examples.iface_b; Examples.iface_a] [])
  <> [Examples.iface_b; Examples.iface_a].
Proof. vm_compute. discriminate. Qed.

(** C8 (amended): [Print] changes the model in its order only.  After the
    call the interfaces are an arrangement of the ones passed in, each with
    its name, its annotations and an arrangement of its own methods,
    properties and signals; nothing is added, dropped or rewritten.  Either
    the model is exactly as it was (the call failed a check), or the
    interfaces and the members of each are sorted by name. *)
Theorem C8_print_permutes_model
        (srt : Sorter) (fe : GoFrontend) (out : string)
        (ifaces : list token.Interface.t) (opts : list printer.PrintOption) :
  model.shuffled ifaces (printer.model (printer.Print out ifaces opts))
  /\ (printer.model (printer.Print out ifaces opts) = ifaces
      \/ (sorted_by (by_key token.Interface.Name)
                    (printer.model (printer.Print out ifaces opts))
          /\ Forall model.members_sorted
                    (printer.model (printer.Print out ifaces opts)))).
Proof.
  unfold printer.Print.
  destruct (negb _); simpl; [split; [apply shuffled_refl|now left]|].
  destruct (_ =? _)%nat; simpl; [split; [apply shuffled_refl|now left]|].
  assert (forall o, printer.model o
                    = printer.prepareIfaces (printer.configure opts) ifaces ->
                    model.shuffled ifaces (printer.model o)
                    /\ (printer.model o = ifaces
                        \/ (sorted_by (by_key token.Interface.Name)
                                      (printer.model o)
                            /\ Forall model.members_sorted (printer.model o))))
    as Hmodel.
  { intros o ->. split; [apply prepareIfaces_shuffled|].
    right. apply prepareIfaces_sorted. }
  apply Hmodel.
  destruct (printer.Execute _ _); [|reflexivity].
  destruct (goparser_ParseFile _); [|reflexivity].
  destruct (printer.gofmt _); [|reflexivity].
  destruct (goformat_Node _). reflexivity.
Qed.

(** C9 (the code at the failing input): with [gofmt] switched off the
    rendered text is still handed to the parser first, and when the parser
    rejects it [Print] returns the parser's error and writes nothing. *)
Theorem C9_gofmt_off_still_parses
        (srt : Sorter) (fe : GoFrontend) (out : string)
        (ifaces : list token.Interface.t) (opts : list printer.PrintOption)
        (buf : string) (e : error) :
  printer.gofmt (printer.configure opts) = false ->
  printer.identRegexp_MatchString (printer.pkgName (printer.configure opts))
  = true ->
  ifaces <> [] ->
  printer.Execute (printer.configure opts)
    (printer.mk_tmplContext
       (printer.pkgName (printer.configure opts))
       (printer.prepareIfaces (printer.configure opts) ifaces)) = Ok buf ->
  goparser_ParseFile buf = Err e ->
  printer.written (printer.Print out ifaces opts) = out
  /\ printer.err (printer.Print out ifaces opts) = Some e.
Proof.
  intros Hg Hid Hne Hex Hparse. rewrite Print_checked by assumption.
  simpl. rewrite Hex, Hparse. auto.
Qed.

Lemma C9_gofmt_off_still_parses_witness :
  printer.written
    (@printer.Print insertion_sorter rejecting_frontend EmptyString
       [Examples.iface_hyphen_arg] [printer.WithGofmt false]) = EmptyString
  /\ printer.err
       (@printer.Print insertion_sorter rejecting_frontend EmptyString
          [Examples.iface_hyphen_arg] [printer.WithGofmt false])
     = Some (foreign "syntax error").
Proof.
  eapply (C9_gofmt_off_still_parses insertion_sorter rejecting_frontend).
  - reflexivity.
  - reflexivity.
  - discriminate.
  - vm_compute. reflexivity.
  - reflexivity.
Defined.

(** ** [merge] *)

Section Merge.
Import token main naming.

Lemma found_in_app (curr more : list Interface.t) (n : string) :
  found_in (curr ++ more)%list n = found_in curr n || found_in more n.
Proof.
  induction curr as [|c curr IH]; simpl; auto.
  destruct (String.eqb _ n); auto.
Qed.

Lemma filter_name_absent (curr : list Interface.t) (n : string) :
  found_in curr n = false -> filter (has_name n) curr = [].
Proof.
  induction curr as [|c curr IH]; simpl; auto. unfold has_name at 1.
  destruct (String.eqb _ n); [discriminate|auto].
Qed.

Lemma filter_twice {A : Type} (f g : A -> bool) (l : list A) :
  filter f (filter g l) = filter (fun x => g x && f x) l.
Proof.
  induction l as [|x l IH]; simpl; auto.
  destruct (g x); simpl; [destruct (f x)|]; congruence.
Qed.

Lemma first_of_each_name_filter (n : string) (l : list Interface.t) :
  first_of_each_name (filter (fun y => negb (has_name n y)) l)
  = filter (fun y => negb (has_name n y)) (first_of_each_name l).
Proof.
  induction l as [|y l IH]; simpl; auto.
  destruct (has_name n y) eqn:E; simpl.
  - rewrite IH, filter_twice. apply filter_ext. intros z.
    unfold has_name in E. apply String.eqb_eq in E. subst n.
    destruct (has_name (Interface.Name y) z); reflexivity.
  - rewrite IH, !filter_twice. f_equal. apply filter_ext. intros z.
    apply andb_comm.
Qed.

Lemma merge_appends (curr next : list Interface.t) :
  merge curr next
  = (curr ++ first_of_each_name (filter (not_in curr) next))%list.
Proof.
  revert curr. induction next as [|x next IH]; intros curr; simpl.
  - now rewrite app_nil_r.
  - unfold not_in at 1.
    destruct (found_in curr (Interface.Name x)) eqn:E; simpl; [apply IH|].
    rewrite IH, <- app_assoc. simpl. do 2 f_equal.
    rewrite <- first_of_each_name_filter. f_equal.
    rewrite filter_twice. apply filter_ext. intros a.
    unfold not_in, has_name. rewrite found_in_app. simpl.
    destruct (found_in curr (Interface.Name a)),
             (String.eqb (Interface.Name x) (Interface.Name a)) eqn:Exa;
      rewrite String.eqb_sym, Exa; reflexivity.
Qed.

(** First seen wins: under every name the result holds what [curr] holds
    under it; a name new to [curr] gets the first such interface of
    [next]. *)
Lemma merge_by_name (curr next : list Interface.t) (n : string) :
  filter (has_name n) (merge curr next)
  = if found_in curr n then filter (has_name n) curr
    else firstn 1 (filter (has_name n) next).
Proof.
  revert curr. induction next as [|x next IH]; intros curr.
  - simpl. destruct (found_in curr n) eqn:E; auto using filter_name_absent.
  - cbn [merge].
    destruct (found_in curr (Interface.Name x)) eqn:Ex; rewrite IH.
    + destruct (found_in curr n) eqn:En; auto. cbn [filter].
      assert (has_name n x = false) as ->; [|reflexivity].
      apply String.eqb_neq. intros Heq. rewrite Heq in Ex. congruence.
    + rewrite found_in_app, filter_app. cbn [found_in filter].
      change (has_name n x) with (String.eqb (Interface.Name x) n).
      destruct (String.eqb_spec (Interface.Name x) n) as [Heq|Hne].
      * rewrite <- Heq, Ex, (filter_name_absent _ _ Ex). reflexivity.
      * rewrite orb_false_r, app_nil_r. reflexivity.
Qed.

End Merge.

(** C2 (as stated, refuted): two incoming interfaces of one name that is new
    to the existing sequence are not both appended. *)
Lemma C2_incoming_duplicates_dropped :
  main.merge [] [Examples.twin_with_method; Examples.twin_bare]
  <> ([] ++ filter (naming.not_in [])
                   [Examples.twin_with_method; Examples.twin_bare])%list.
Proof. vm_compute. discriminate. Qed.

(** C2 (amended): [merge existing incoming] is [existing], unchanged, followed
    by the incoming interfaces whose name occurs neither in [existing] nor
    earlier in [incoming], in their incoming order.  Under every name the
    result holds exactly the interfaces [existing] holds under it, and, for a
    name new to [existing], the first incoming interface of that name; the
    interfaces themselves are never rewritten. *)
Theorem C2_merge_first_seen_wins
        (existing incoming : list token.Interface.t) (n : string) :
  main.merge existing incoming
  = (existing
     ++ naming.first_of_each_name
          (filter (naming.not_in existing) incoming))%list
  /\ filter (naming.has_name n) (main.merge existing incoming)
     = if main.found_in existing n
       then filter (naming.has_name n) existing
       else firstn 1 (filter (naming.has_name n) incoming).
Proof. split; [apply merge_appends|apply merge_by_name]. Qed.

(** ** Property accessors *)

(** What the guard of the getter decides: the property is readable and no
    method has the getter's name as its raw name. *)
Lemma propNeedsGet_raw_name (p : printer.printer) (iface : token.Interface.t)
      (prop : token.Property.t) :
  printer.propNeedsGet p iface prop = true <->
  token.Property.Read prop = true
  /\ forall method, In method (token.Interface.Methods iface) ->
                    token.Method.Name method <> printer.propGetType p prop.
Proof.
  unfold printer.propNeedsGet, printer.propNeedsAccessor.
  destruct (token.Property.Read prop); simpl; [|intuition discriminate].
  generalize (printer.propGetType p prop) as name. intros name.
  induction (token.Interface.Methods iface) as [|m ms IH]; simpl.
  - intuition.
  - destruct (String.eqb_spec (token.Method.Name m) name) as [E|E].
    + split; [discriminate|]. intros [_ H]. exfalso. apply (H m); auto.
    + rewrite IH. split.
      * intros [_ H]. split; auto. intros m' [<-|Hm']; auto.
      * intros [_ H]. split; auto.
Qed.

Lemma propNeedsSet_raw_name (p : printer.printer) (iface : token.Interface.t)
      (prop : token.Property.t) :
  printer.propNeedsSet p iface prop = true <->
  token.Property.Write prop = true
  /\ forall method, In method (token.Interface.Methods iface) ->
                    token.Method.Name method <> printer.propSetType p prop.
Proof.
  unfold printer.propNeedsSet, printer.propNeedsAccessor.
  destruct (token.Property.Write prop); simpl; [|intuition discriminate].
  generalize (printer.propSetType p prop) as name. intros name.
  induction (token.Interface.Methods iface) as [|m ms IH]; simpl.
  - intuition.
  - destruct (String.eqb_spec (token.Method.Name m) name) as [E|E].
    + split; [discriminate|]. intros [_ H]. exfalso. apply (H m); auto.
    + rewrite IH. split.
      * intros [_ H]. split; auto. intros m' [<-|Hm']; auto.
      * intros [_ H]. split; auto.
Qed.

(** C7 (the code at the failing input): interface [a.b] has the method
    [getFoo] and the readable property [foo].  The binding of the method is
    named [GetFoo], and so is the getter, yet [propNeedsGet] answers true:
    it compares the getter's name with the raw name of the method. *)
Lemma C7_getter_despite_method_of_same_derived_name :
  let p := printer.mk_printer "dbusgen" true [] in
  let method := token.Method.mk "getFoo" [] [] [] in
  let prop := token.Property.mk "foo" (token.Arg.mk "value" "string")
                                true false [] in
  let iface := token.Interface.mk "a.b" [method] [prop] [] [] in
  printer.propNeedsGet p iface prop = true
  /\ printer.methodType p method = printer.propGetType p prop.
Proof. split; reflexivity. Qed.

(** ** Characters, keywords and decimal numerals *)

Ltac all_bytes c :=
  destruct c as [[|] [|] [|] [|] [|] [|] [|] [|]]; vm_compute;
  intuition congruence.

Section Chars.
Import ident.

Lemma upper_char_not_lower (c : ascii) : is_lower (upper_char c) = false.
Proof. all_bytes c. Qed.

Lemma alnum_not_underscore (c : ascii) :
  is_alnum c = true -> is_underscore c = false.
Proof. all_bytes c. Qed.

Lemma underscore_not_lower (c : ascii) :
  is_underscore c = true -> is_lower c = false.
Proof. all_bytes c. Qed.

Lemma lower_letter_fixed (c : ascii) : is_lower c = true -> lower_char c = c.
Proof. all_bytes c. Qed.

Lemma lower_not_underscore (c : ascii) :
  is_lower c = true -> is_underscore c = false.
Proof. all_bytes c. Qed.

Lemma upper_char_ident (c : ascii) :
  ident_char c = true -> ident_char (upper_char c) = true.
Proof. all_bytes c. Qed.

Lemma lower_char_ident (c : ascii) :
  ident_char c = true -> ident_char (lower_char c) = true.
Proof. all_bytes c. Qed.

Lemma upper_char_start (c : ascii) :
  is_letter c || is_underscore c = true ->
  is_letter (upper_char c) || is_underscore (upper_char c) = true.
Proof. all_bytes c. Qed.

Lemma lower_char_start (c : ascii) :
  ident_char c = true -> is_digit c = false ->
  is_letter (lower_char c) || is_underscore (lower_char c) = true.
Proof. all_bytes c. Qed.

Lemma start_ident (c : ascii) :
  is_letter c || is_underscore c = true -> ident_char c = true.
Proof. all_bytes c. Qed.

Lemma digit_ident (c : ascii) : is_digit c = true -> ident_char c = true.
Proof. all_bytes c. Qed.

Lemma is_underscore_eq (c : ascii) : is_underscore c = true -> c = "_"%char.
Proof. unfold is_underscore. apply Ascii.eqb_eq. Qed.

Lemma forallb_append (P : ascii -> bool) (a b : string) :
  string_forallb P (a ++ b) = string_forallb P a && string_forallb P b.
Proof.
  induction a as [|c a IH]; simpl; auto. rewrite IH. apply andb_assoc.
Qed.

Lemma forallb_impl (P Q : ascii -> bool) (s : string) :
  (forall c, P c = true -> Q c = true) ->
  string_forallb P s = true -> string_forallb Q s = true.
Proof.
  intros H. induction s as [|c s IH]; simpl; auto.
  intros Hs. apply andb_prop in Hs as [Hc Hs].
  rewrite (H _ Hc), (IH Hs). reflexivity.
Qed.

Lemma append_assoc (a b c : string) : (a ++ b) ++ c = a ++ (b ++ c).
Proof. induction a as [|x a IH]; simpl; congruence. Qed.

Lemma append_nil_r (a : string) : a ++ EmptyString = a.
Proof. induction a as [|x a IH]; simpl; congruence. Qed.

(** *** Keywords *)

Lemma keyword_lower (s : string) :
  printer.isKeyword s = true -> string_forallb is_lower s = true.
Proof.
  unfold printer.isKeyword. intros H.
  apply existsb_exists in H as (k & Hin & Heq).
  apply String.eqb_eq in Heq. subst k. unfold keywords in Hin.
  simpl in Hin.
  repeat (destruct Hin as [<-|Hin]; [reflexivity|]). contradiction.
Qed.

Lemma keyword_nonempty : printer.isKeyword EmptyString = false.
Proof. reflexivity. Qed.

(** A string with a byte that is no lower-case letter is no keyword. *)
Lemma not_keyword_by_byte (a b : string) (c : ascii) :
  is_lower c = false -> printer.isKeyword (a ++ String c b) = false.
Proof.
  intros Hc. destruct (printer.isKeyword _) eqn:E; [|reflexivity].
  apply keyword_lower in E. rewrite forallb_append in E. simpl in E.
  rewrite Hc in E. simpl in E. rewrite andb_false_r in E. discriminate.
Qed.

Lemma isKeyword_same (s : string) :
  dbusgen.isKeyword s = printer.isKeyword s.
Proof.
  unfold dbusgen.isKeyword, printer.isKeyword.
  induction keywords as [|k ks IH]; simpl; auto.
  rewrite IH. destruct (String.eqb s k); reflexivity.
Qed.

(** *** [strings.Title] *)

Lemma Title_cons (c : ascii) (s : string) :
  strings.Title (String c s)
  = String (upper_char c) (strings.title_from (strings.isSeparator c) s).
Proof. reflexivity. Qed.

Lemma Title_not_keyword (prefix s : string) :
  s <> EmptyString ->
  printer.isKeyword (prefix ++ strings.Title s) = false.
Proof.
  destruct s as [|c s]; [congruence|]. intros _. rewrite Title_cons.
  apply not_keyword_by_byte, upper_char_not_lower.
Qed.

Lemma title_from_ident (b : bool) (s : string) :
  string_forallb ident_char s = true ->
  string_forallb ident_char (strings.title_from b s) = true.
Proof.
  revert b. induction s as [|c s IH]; intros b; simpl; auto.
  intros H. apply andb_prop in H as [Hc Hs]. rewrite (IH _ Hs).
  destruct b; rewrite ?upper_char_ident, ?Hc; auto.
Qed.

Lemma Title_identifier (s : string) :
  go_identifier s = true -> go_identifier (strings.Title s) = true.
Proof.
  destruct s as [|c s]; simpl; auto. intros H.
  apply andb_prop in H as [Hc Hs].
  rewrite (upper_char_start _ Hc), (title_from_ident _ _ Hs). reflexivity.
Qed.

(** *** [strconv.Itoa] *)

Lemma string_of_uint_digits (d : Decimal.uint) :
  string_forallb is_digit (NilEmpty.string_of_uint d) = true.
Proof. induction d; simpl; auto. Qed.

Lemma Itoa_first (i : Z) :
  exists c s, strconv.Itoa i = String c s /\ is_lower c = false.
Proof.
  unfold strconv.Itoa. destruct i as [|q|q]; simpl.
  - eexists _, _. split; reflexivity.
  - pose proof (DecimalPos.Unsigned.to_uint_nonnil q) as Hn.
    destruct (Pos.to_uint q); try congruence; simpl;
      eexists _, _; split; reflexivity.
  - eexists _, _. split; reflexivity.
Qed.

Lemma Itoa_nonneg_digits (i : Z) :
  (0 <= i)%Z -> string_forallb is_digit (strconv.Itoa i) = true.
Proof.
  unfold strconv.Itoa. destruct i as [|q|q]; simpl; intros H.
  - reflexivity.
  - apply string_of_uint_digits.
  - lia.
Qed.

Lemma positional_not_keyword (prefix : string) (i : Z) :
  printer.isKeyword (prefix ++ strconv.Itoa i) = false.
Proof.
  destruct (Itoa_first i) as (c & s & -> & Hc).
  now apply not_keyword_by_byte.
Qed.

End Chars.

(** ** The camel-casing of [argName] *)

Section Camel.
Import ident.

Let F : string -> string :=
  fun m => strings.Title (strings.TrimLeft m "_").

Lemma underscores_snoc (k : nat) :
  underscores k ++ String "_" EmptyString = underscores (S k).
Proof. induction k as [|k IH]; simpl in *; congruence. Qed.

Lemma TrimLeft_underscores (k : nat) (a : ascii) (s : string) :
  is_underscore a = false ->
  strings.TrimLeft (underscores k ++ String a s) "_" = String a s.
Proof.
  intros Ha. induction k as [|k IH]; simpl.
  - unfold is_underscore in Ha. rewrite Ha. reflexivity.
  - exact IH.
Qed.

Lemma TrimLeft_forallb (P : ascii -> bool) (s cut : string) :
  string_forallb P s = true ->
  string_forallb P (strings.TrimLeft s cut) = true.
Proof.
  induction s as [|c s IH]; simpl; auto. intros H.
  destruct (string_existsb _ cut); auto.
  apply andb_prop in H as [_ H]. auto.
Qed.

(** The replacement of a match: the letter or digit, upper-cased. *)
Lemma F_match (k : nat) (a : ascii) :
  is_underscore a = false ->
  F (underscores k ++ String a EmptyString)
  = String (upper_char a) EmptyString.
Proof. intros Ha. unfold F. now rewrite TrimLeft_underscores. Qed.

Lemma replace_copy (w s : string) :
  no_underscore w = true ->
  printer.varRegexp_replace_from F EmptyString (w ++ s)
  = w ++ printer.varRegexp_replace_from F EmptyString s.
Proof.
  induction w as [|c w IH]; simpl; auto. intros H.
  apply andb_prop in H as [Hc Hw]. apply negb_true_iff in Hc.
  rewrite Hc, (IH Hw). reflexivity.
Qed.

Lemma replace_run (k : nat) (run s : string) :
  printer.varRegexp_replace_from F run (underscores k ++ s)
  = printer.varRegexp_replace_from F (run ++ underscores k) s.
Proof.
  revert run. induction k as [|k IH]; intros run; simpl.
  - now rewrite append_nil_r.
  - rewrite IH, append_assoc. reflexivity.
Qed.

Lemma camel_cons (c : ascii) (s : string) :
  is_underscore c = false -> camel (String c s) = String c (camel s).
Proof.
  intros Hc. unfold camel, printer.varRegexp_ReplaceAllStringFunc. simpl.
  now rewrite Hc.
Qed.

(** A run of underscores before a letter or digit: one boundary. *)
Lemma camel_match (k : nat) (a : ascii) (s : string) :
  is_alnum a = true ->
  camel (underscores (S k) ++ String a s) = String (upper_char a) (camel s).
Proof.
  intros Ha. pose proof (alnum_not_underscore _ Ha) as Hu.
  unfold camel, printer.varRegexp_ReplaceAllStringFunc.
  rewrite replace_run. cbn [append underscores].
  cbn [printer.varRegexp_replace_from]. rewrite Hu, Ha.
  change (String "_" (underscores k) ++ String a EmptyString)
    with (underscores (S k) ++ String a EmptyString).
  fold F. rewrite F_match by assumption. reflexivity.
Qed.

(** A run of underscores before anything else stays. *)
Lemma camel_kept (k : nat) (c : ascii) (s : string) :
  is_alnum c = false -> is_underscore c = false ->
  camel (underscores (S k) ++ String c s)
  = underscores (S k) ++ String c (camel s).
Proof.
  intros Ha Hu. unfold camel, printer.varRegexp_ReplaceAllStringFunc.
  rewrite replace_run. cbn [append underscores].
  cbn [printer.varRegexp_replace_from]. rewrite Hu, Ha. reflexivity.
Qed.


Lemma camel_no_underscore (w : string) :
  no_underscore w = true -> camel w = w.
Proof.
  intros H. unfold camel, printer.varRegexp_ReplaceAllStringFunc.
  rewrite <- (append_nil_r w) at 1. rewrite replace_copy by assumption.
  simpl. apply append_nil_r.
Qed.



Lemma replace_ident (s run : string) :
  string_forallb ident_char run = true ->
  string_forallb ident_char s = true ->
  string_forallb ident_char (printer.varRegexp_replace_from F run s) = true.
Proof.
  revert run. induction s as [|c s IH]; intros run Hrun Hs; simpl; auto.
  apply andb_prop in Hs as [Hc Hs].
  assert (Hrc : string_forallb ident_char (run ++ String c EmptyString)
                = true)
    by (rewrite forallb_append; simpl; now rewrite Hrun, Hc).
  destruct (is_underscore c); [now apply IH|].
  destruct run as [|r run]; simpl.
  - rewrite Hc. now apply IH.
  - destruct (is_alnum c).
    + rewrite forallb_append, (IH EmptyString) by auto.
      unfold F, strings.Title. rewrite title_from_ident; auto.
      now apply TrimLeft_forallb.
    + change (String r (run ++ String c
                 (printer.varRegexp_replace_from F EmptyString s)))
        with (String r run ++ String c
                 (printer.varRegexp_replace_from F EmptyString s)).
      rewrite forallb_append. cbn [string_forallb] in *.
      rewrite Hrun, Hc, (IH EmptyString) by auto. reflexivity.
Qed.

Lemma camel_ident (s : string) :
  string_forallb ident_char s = true ->
  string_forallb ident_char (camel s) = true.
Proof. intros H. now apply replace_ident. Qed.

(** An all-lower-case result means that there was nothing to replace. *)
Lemma replace_lower_inv (s : string) (k : nat) :
  string_forallb is_lower
    (printer.varRegexp_replace_from F (underscores k) s) = true ->
  k = O /\ no_underscore s = true.
Proof.
  revert k. induction s as [|c s IH]; intros k;
    cbn [printer.varRegexp_replace_from].
  - destruct k; simpl; auto. discriminate.
  - destruct (is_underscore c) eqn:Hu.
    + apply is_underscore_eq in Hu. subst c.
      rewrite underscores_snoc. intros H. apply IH in H as [H _].
      discriminate.
    + destruct k as [|k]; cbn [underscores].
      * cbn [string_forallb]. intros H. apply andb_prop in H as [_ H].
        apply (IH O) in H as [_ H]. split; [reflexivity|].
        unfold no_underscore in *. cbn [string_forallb].
        rewrite Hu, H. reflexivity.
      * destruct (is_alnum c) eqn:Ha.
        -- change (String "_" (underscores k) ++ String c EmptyString)
             with (underscores (S k) ++ String c EmptyString).
           rewrite F_match by assumption. cbn [append string_forallb].
           rewrite upper_char_not_lower. discriminate.
        -- cbn [append string_forallb]. discriminate.
Qed.

Lemma camel_lower_inv (s : string) :
  string_forallb is_lower (camel s) = true -> camel s = s.
Proof.
  intros H. apply (replace_lower_inv s O) in H as [_ H].
  now apply camel_no_underscore.
Qed.

End Camel.

(** ** [argName] *)

Section ArgName.
Import token ident.

(** The export rule and the reserved-word rule come after the first two;
    an exported name never meets the reserved-word rule. *)
Lemma argName_form (p : printer.printer) (arg : Arg.t) (prefix : string)
      (i : Z) (export : bool) :
  printer.argName p arg prefix i export
  = let n := raw_ident (Arg.Name arg) prefix i in
    if export then strings.Title n
    else if printer.isKeyword n then prefix ++ strings.Title n else n.
Proof.
  unfold printer.argName.
  assert (match Arg.Name arg with
          | EmptyString => prefix ++ strconv.Itoa i
          | String c tail =>
              strings.ToLower (String c EmptyString)
              ++ printer.varRegexp_ReplaceAllStringFunc
                   (fun s => strings.Title (strings.TrimLeft s "_")) tail
          end = raw_ident (Arg.Name arg) prefix i) as ->
    by (destruct (Arg.Name arg); reflexivity).
  cbv zeta. destruct export; [|reflexivity].
  destruct (raw_ident (Arg.Name arg) prefix i) as [|c s] eqn:E.
  - reflexivity.
  - assert (Hk : printer.isKeyword (strings.Title (String c s)) = false)
      by (apply (Title_not_keyword EmptyString (String c s)); discriminate).
    rewrite Hk. reflexivity.
Qed.

Lemma go_identifier_chars (s : string) :
  go_identifier s = true -> string_forallb ident_char s = true.
Proof.
  destruct s as [|c s]; simpl; [discriminate|]. intros H.
  apply andb_prop in H as [Hc Hs]. now rewrite (start_ident _ Hc), Hs.
Qed.

Lemma go_identifier_append (a b : string) :
  go_identifier a = true -> string_forallb ident_char b = true ->
  go_identifier (a ++ b) = true.
Proof.
  destruct a as [|c a]; simpl; [discriminate|]. intros H Hb.
  apply andb_prop in H as [Hc Ha]. now rewrite Hc, forallb_append, Ha, Hb.
Qed.

Lemma raw_ident_identifier (name prefix : string) (i : Z) :
  string_forallb ident_char name = true ->
  (forall c s, name = String c s -> is_digit c = false) ->
  go_identifier prefix = true -> (0 <= i)%Z ->
  go_identifier (raw_ident name prefix i) = true.
Proof.
  intros Hn Hd Hp Hi. destruct name as [|c tail]; simpl.
  - apply go_identifier_append; auto.
    eapply forallb_impl; [apply digit_ident|now apply Itoa_nonneg_digits].
  - simpl in Hn. apply andb_prop in Hn as [Hc Ht].
    rewrite (lower_char_start c Hc (Hd _ _ eq_refl)).
    now rewrite camel_ident.
Qed.

End ArgName.

(** ** The legacy deriver against [argName] *)

Section Legacy.
Import token ident.

Let G : string -> string :=
  fun s => strings.Title (substring 1 (length s - 1) s).

Lemma no_double_underscore_tail (c : ascii) (s : string) :
  no_double_underscore (String c s) = true -> no_double_underscore s = true.
Proof.
  destruct s as [|d s]; [reflexivity|]. cbn [no_double_underscore].
  intros H. now apply andb_prop in H as [_ H].
Qed.

Lemma legacy_replace_step (c d : ascii) (s : string) :
  dbusgen.varRegexp_ReplaceAllStringFunc G (String c (String d s))
  = if is_underscore c && is_alnum d
    then G (String c (String d EmptyString))
         ++ dbusgen.varRegexp_ReplaceAllStringFunc G s
    else String c (dbusgen.varRegexp_ReplaceAllStringFunc G (String d s)).
Proof. reflexivity. Qed.

(** Without two underscores in a row the two regular expressions find the
    same matches. *)
Lemma legacy_replace_camel (s : string) :
  no_double_underscore s = true ->
  dbusgen.varRegexp_ReplaceAllStringFunc G s = camel s.
Proof.
  remember (length s) as n eqn:Hn. revert s Hn.
  induction n as [n IH] using lt_wf_ind. intros s Hn Hnd.
  destruct s as [|c [|d s']].
  - reflexivity.
  - cbn [dbusgen.varRegexp_ReplaceAllStringFunc].
    destruct (is_underscore c) eqn:Hc.
    + apply is_underscore_eq in Hc. subst c. reflexivity.
    + now rewrite camel_cons.
  - pose proof (no_double_underscore_tail _ _ Hnd) as Hnd1.
    pose proof (no_double_underscore_tail _ _ Hnd1) as Hnd2.
    assert (IH1 : dbusgen.varRegexp_ReplaceAllStringFunc G (String d s')
                  = camel (String d s'))
      by (apply (IH (length (String d s'))); simpl in *; auto; lia).
    assert (IH2 : dbusgen.varRegexp_ReplaceAllStringFunc G s' = camel s')
      by (apply (IH (length s')); simpl in *; auto; lia).
    rewrite legacy_replace_step.
    destruct (is_underscore c) eqn:Hc.
    + cbn [no_double_underscore] in Hnd. rewrite Hc in Hnd.
      destruct (is_underscore d) eqn:Hd; [discriminate|].
      apply is_underscore_eq in Hc. subst c.
      destruct (is_alnum d) eqn:Ha; cbn [andb].
      * pose proof (camel_match 0 d s' Ha) as Hm.
        cbn [underscores append] in Hm. rewrite IH2, Hm. reflexivity.
      * pose proof (camel_kept 0 d s' Ha Hd) as Hm.
        cbn [underscores append] in Hm. rewrite IH1, Hm.
        now rewrite (camel_cons d) by assumption.
    + cbn [andb]. rewrite IH1. now rewrite (camel_cons c) by assumption.
Qed.

Lemma lower_no_underscore (s : string) :
  string_forallb is_lower s = true -> no_underscore s = true.
Proof.
  apply forallb_impl. intros c Hc. now rewrite lower_not_underscore.
Qed.

Lemma newArg_argName (p : printer.printer) (ty identifier prefix : string)
      (i : Z) :
  no_double_underscore identifier = true ->
  (printer.isKeyword (lower_first identifier) = true ->
   printer.isKeyword identifier = true) ->
  dbusgen.newArg_name identifier prefix i
  = printer.argName p (Arg.mk identifier ty) prefix i false.
Proof.
  intros Hnd Hcap. rewrite argName_form. cbn [Arg.Name].
  destruct identifier as [|c tail].
  - cbn [dbusgen.newArg_name raw_ident]. cbv zeta.
    now rewrite positional_not_keyword.
  - cbn [dbusgen.newArg_name raw_ident]. cbv zeta.
    rewrite isKeyword_same.
    destruct (printer.isKeyword (String c tail)) eqn:Ek.
    + pose proof (keyword_lower _ Ek) as Hl. cbn [string_forallb] in Hl.
      apply andb_prop in Hl as [Hc Ht].
      rewrite (lower_letter_fixed _ Hc),
        (camel_no_underscore _ (lower_no_underscore _ Ht)), Ek.
      reflexivity.
    + fold G.
      rewrite (legacy_replace_camel tail (no_double_underscore_tail _ _ Hnd)).
      change (strings.ToLower (String c EmptyString) ++ camel tail)
        with (String (lower_char c) (camel tail)).
      destruct (printer.isKeyword (String (lower_char c) (camel tail)))
        eqn:En; [|reflexivity].
      pose proof (keyword_lower _ En) as Hl. cbn [string_forallb] in Hl.
      apply andb_prop in Hl as [_ Ht].
      rewrite (camel_lower_inv _ Ht) in En.
      cbn [lower_first] in Hcap. discriminate (Hcap En).
Qed.

End Legacy.




(** C5 (as stated, refuted): a raw name with a hyphen comes back with the
    hyphen, and an unnamed argument with an empty role prefix comes back as
    a number; neither is an identifier. *)
Lemma C5_argName_not_always_identifier :
  let p := printer.mk_printer "dbusgen" true [] in
  printer.argName p (token.Arg.mk "a-b" "string") "v" 0 false = "a-b"
  /\ ident.go_identifier
       (printer.argName p (token.Arg.mk "a-b" "string") "v" 0 false) = false
  /\ ident.go_identifier
       (printer.argName p (token.Arg.mk EmptyString "string") EmptyString 0
                        false) = false.
Proof. repeat split. Qed.

(** C5 (amended): [argName] is total, and when the raw name is made of
    letters, digits and underscores and does not begin with a digit, the role
    prefix is an identifier and the index is not negative, its result is an
    identifier of Go and not a keyword. *)
Theorem C5_argName_identifier
        (p : printer.printer) (arg : token.Arg.t) (prefix : string) (i : Z)
        (export : bool) :
  string_forallb ident.ident_char (token.Arg.Name arg) = true ->
  (forall c s, token.Arg.Name arg = String c s -> is_digit c = false) ->
  ident.go_identifier prefix = true ->
  (0 <= i)%Z ->
  ident.go_identifier (printer.argName p arg prefix i export) = true
  /\ printer.isKeyword (printer.argName p arg prefix i export) = false.
Proof.
  intros Hn Hd Hp Hi. rewrite argName_form. cbv zeta.
  pose proof (raw_ident_identifier _ _ _ Hn Hd Hp Hi) as Hid.
  assert (Hne : ident.raw_ident (token.Arg.Name arg) prefix i <> EmptyString)
    by (intros E; rewrite E in Hid; discriminate).
  destruct export.
  - split; [now apply Title_identifier|].
    now apply (Title_not_keyword EmptyString).
  - destruct (printer.isKeyword _) eqn:Ek.
    + split; [|now apply Title_not_keyword].
      apply go_identifier_append; auto.
      now apply go_identifier_chars, Title_identifier.
    + auto.
Qed.

Lemma C5_argName_identifier_witness :
  ident.go_identifier
    (printer.argName (printer.mk_printer "dbusgen" true [])
                     (token.Arg.mk "type" "string") "v" 0 false) = true
  /\ printer.isKeyword
       (printer.argName (printer.mk_printer "dbusgen" true [])
                        (token.Arg.mk "type" "string") "v" 0 false) = false.
Proof.
  apply C5_argName_identifier.
  - reflexivity.
  - intros c s E. inversion E. reflexivity.
  - reflexivity.
  - lia.
Defined.

(** C10 (as stated, refuted): on two underscores in a row, and on a
    capitalised keyword, the two derivers part. *)
Lemma C10_derivers_differ :
  let p := printer.mk_printer "dbusgen" true [] in
  dbusgen.newArg_name "foo__bar" "v" 0 = "foo_Bar"
  /\ printer.argName p (token.Arg.mk "foo__bar" "string") "v" 0 false
     = "fooBar"
  /\ dbusgen.newArg_name "Type" "v" 0 = "type"
  /\ printer.argName p (token.Arg.mk "Type" "string") "v" 0 false = "vType".
Proof. repeat split. Qed.

(** C10 (amended): [newArg] and [argName] with [export = false] give the same
    identifier for every prefix and index and every raw name that has no two
    underscores in a row and does not turn into a keyword when its first
    byte is lower-cased (unless it is a keyword already). *)
Theorem C10_newArg_agrees_with_argName
        (p : printer.printer) (ty identifier prefix : string) (i : Z) :
  ident.no_double_underscore identifier = true ->
  (printer.isKeyword (ident.lower_first identifier) = true ->
   printer.isKeyword identifier = true) ->
  dbusgen.newArg_name identifier prefix i
  = printer.argName p (token.Arg.mk identifier ty) prefix i false.
Proof. apply newArg_argName. Qed.

Lemma C10_newArg_agrees_with_argName_witness :
  dbusgen.newArg_name "object_path" "in" 3
  = printer.argName (printer.mk_printer "dbusgen" true [])
                    (token.Arg.mk "object_path" "o") "in" 3 false.
Proof.
  apply C10_newArg_agrees_with_argName.
  - reflexivity.
  - vm_compute. discriminate.
Defined.

(** ** [ifaceType] *)

Section IfaceType.
Import token stripping.

Lemma last_byte_some (s : string) :
  s <> EmptyString -> exists c, printer.last_byte s = Some c.
Proof.
  induction s as [|c s IH]; [congruence|]. intros _.
  destruct s as [|d s]; [now exists c|].
  destruct IH as (x & Hx); [discriminate|]. exists x. exact Hx.
Qed.

Lemma slice_from_app (a s : string) (n : nat) :
  slice_from (length a + n) (a ++ s) = slice_from n s.
Proof. induction a as [|c a IH]; simpl; auto. Qed.

Lemma substring_leading (q s : string) : substring 0 (length q) (q ++ s) = q.
Proof.
  induction q as [|c q IH]; simpl.
  - now destruct s.
  - now rewrite IH.
Qed.

(** A leading occurrence is the first occurrence. *)
Lemma Index_leading (q s : string) : strings.Index (q ++ s) q = 0%Z.
Proof.
  unfold strings.Index.
  assert (String.prefix q (q ++ s) = true) as Hp
    by (apply prefix_correct, substring_leading).
  destruct (q ++ s) as [|b t] eqn:E; cbn [String.index].
  - destruct q; [reflexivity|discriminate].
  - now rewrite Hp.
Qed.

Lemma strip_step (name q : string) (rest : list string) :
  q <> EmptyString ->
  printer.strip_prefixes name (q :: rest)
  = let i := strings.Index name (trim_dot q) in
    if (i =? -1)%Z then printer.strip_prefixes name rest
    else slice_from (Z.to_nat (i + Z.of_nat (length (trim_dot q)) + 1)) name.
Proof.
  intros Hq. destruct (last_byte_some q Hq) as (c & Hc).
  cbn [printer.strip_prefixes]. unfold trim_dot. rewrite Hc. reflexivity.
Qed.

Lemma strip_skip (name : string) (skipped rest : list string) :
  Forall (absent name) skipped ->
  printer.strip_prefixes name (skipped ++ rest)%list
  = printer.strip_prefixes name rest.
Proof.
  induction 1 as [|q skipped [Hq Hi] _ IH]; [reflexivity|].
  cbn [List.app]. rewrite strip_step by assumption. cbv zeta.
  rewrite Hi. exact IH.
Qed.

Lemma strip_hit (name q pre tail : string) (c : ascii) (rest : list string) :
  q <> EmptyString ->
  name = pre ++ trim_dot q ++ String c tail ->
  strings.Index name (trim_dot q) = Z.of_nat (length pre) ->
  printer.strip_prefixes name (q :: rest) = Some tail.
Proof.
  intros Hq Hname Hi. rewrite strip_step by assumption. cbv zeta.
  rewrite Hi.
  destruct (Z.eqb_spec (Z.of_nat (length pre)) (-1)); [lia|].
  replace (Z.to_nat (Z.of_nat (length pre)
                     + Z.of_nat (length (trim_dot q)) + 1))
    with (length pre + (length (trim_dot q) + 1))%nat by lia.
  rewrite Hname, slice_from_app, slice_from_app. reflexivity.
Qed.

Lemma ifaceType_after_strip (p : printer.printer) (iface : Interface.t)
      (name : string) :
  printer.strip_prefixes (Interface.Name iface) (printer.prefixes p)
  = Some name ->
  printer.ifaceType p iface = Some (exported_type name).
Proof.
  intros H. unfold printer.ifaceType, exported_type. rewrite H.
  cbv zeta. now destruct (printer.isKeyword _).
Qed.

End IfaceType.

(** C6 (as stated, refuted): [example] is not a leading prefix of
    [org.example.Foo], yet it is found inside the name and everything up to
    and including it and the dot after it is removed. *)
Lemma C6_inner_occurrence_stripped :
  let iface := token.Interface.mk "org.example.Foo" [] [] [] [] in
  String.prefix "example" (token.Interface.Name iface) = false
  /\ printer.ifaceType (printer.mk_printer "dbusgen" true ["example"]) iface
     = Some "Foo"
  /\ stripping.exported_type
       (stripping.spec_strip (token.Interface.Name iface) ["example"])
     = "Org_Example_Foo".
Proof. repeat split. Qed.

(** C6 (amended): [ifaceType] tries the configured prefixes in list order,
    each without its trailing dot, and the first one that occurs anywhere in
    the interface name decides: the name is cut after the first occurrence
    and the one character that follows it, and what remains is camel-cased.
    So a prefix that leads the name and is followed by a dot is removed
    together with the dot, and prefixes that occur nowhere in the name remove
    nothing. *)
Theorem C6_ifaceType_strips_first_occurrence
        (p : printer.printer) (iface : token.Interface.t) :
  (Forall (stripping.absent (token.Interface.Name iface))
          (printer.prefixes p) ->
   printer.ifaceType p iface
   = Some (stripping.exported_type (token.Interface.Name iface)))
  /\ (forall (skipped rest : list string) (q pre tail : string) (c : ascii),
         printer.prefixes p = (skipped ++ q :: rest)%list ->
         Forall (stripping.absent (token.Interface.Name iface)) skipped ->
         q <> EmptyString ->
         token.Interface.Name iface
         = pre ++ stripping.trim_dot q ++ String c tail ->
         strings.Index (token.Interface.Name iface) (stripping.trim_dot q)
         = Z.of_nat (length pre) ->
         printer.ifaceType p iface = Some (stripping.exported_type tail))
  /\ (forall (skipped rest : list string) (q tail : string),
         printer.prefixes p = (skipped ++ q :: rest)%list ->
         Forall (stripping.absent (token.Interface.Name iface)) skipped ->
         q <> EmptyString ->
         token.Interface.Name iface
         = stripping.trim_dot q ++ String "." tail ->
         printer.ifaceType p iface = Some (stripping.exported_type tail)).
Proof.
  repeat split.
  - intros Habs. apply ifaceType_after_strip.
    rewrite <- (app_nil_r (printer.prefixes p)).
    now rewrite strip_skip.
  - intros skipped rest q pre tail c Hp Habs Hq Hname Hi.
    apply ifaceType_after_strip. rewrite Hp, strip_skip by assumption.
    eapply strip_hit; eauto.
  - intros skipped rest q tail Hp Habs Hq Hname.
    apply ifaceType_after_strip. rewrite Hp, strip_skip by assumption.
    apply (strip_hit _ q EmptyString tail "."%char); auto.
    rewrite Hname. apply Index_leading.
Qed.

Lemma C6_ifaceType_strips_first_occurrence_witness :
  printer.ifaceType
    (printer.mk_printer "dbusgen" true ["com.acme"; "org.example."])
    (token.Interface.mk "org.example.Foo" [] [] [] [])
  = Some "Foo".
Proof.
  destruct (C6_ifaceType_strips_first_occurrence
              (printer.mk_printer "dbusgen" true ["com.acme"; "org.example."])
              (token.Interface.mk "org.example.Foo" [] [] [] []))
    as (_ & _ & H).
  apply (H ["com.acme"] [] "org.example." "Foo").
  - reflexivity.
  - repeat constructor. discriminate.
  - discriminate.
  - reflexivity.
Defined.

(** * Further properties of the code *)

(** ** [merge], used chunk after chunk *)

Section MergeMore.
Import token main naming.

Lemma found_in_In (l : list Interface.t) (n : string) :
  found_in l n = true <-> In n (map Interface.Name l).
Proof.
  induction l as [|x l IH]; simpl; [intuition discriminate|].
  destruct (String.eqb_spec (Interface.Name x) n); intuition.
Qed.

Lemma found_in_merge (curr next : list Interface.t) (n : string) :
  found_in (merge curr next) n = found_in curr n || found_in next n.
Proof.
  revert curr. induction next as [|x next IH]; intros curr; simpl.
  - now rewrite orb_false_r.
  - destruct (found_in curr (Interface.Name x)) eqn:Ex; rewrite IH.
    + destruct (String.eqb_spec (Interface.Name x) n) as [<-|_]; auto.
      now rewrite Ex.
    + rewrite found_in_app. simpl.
      destruct (String.eqb (Interface.Name x) n); simpl;
        now rewrite <- ?orb_assoc.
Qed.

Lemma merge_absorb (curr next : list Interface.t) :
  (forall x, In x next -> found_in curr (Interface.Name x) = true) ->
  merge curr next = curr.
Proof.
  induction next as [|x next IH]; intros H; simpl; auto.
  rewrite (H x) by now left. apply IH. intros y Hy. apply H. now right.
Qed.

Lemma merge_app (curr a b : list Interface.t) :
  merge curr (a ++ b)%list = merge (merge curr a) b.
Proof.
  revert curr. induction a as [|x a IH]; intros curr; simpl; auto.
  destruct (found_in curr (Interface.Name x)); apply IH.
Qed.

Lemma merge_NoDup (curr next : list Interface.t) :
  NoDup (map Interface.Name curr) ->
  NoDup (map Interface.Name (merge curr next)).
Proof.
  revert curr. induction next as [|x next IH]; intros curr Hnd; simpl; auto.
  destruct (found_in curr (Interface.Name x)) eqn:Ex; apply IH; auto.
  rewrite map_app. simpl.
  apply (Permutation_NoDup (Permutation_cons_append _ _)).
  constructor; auto. intros Hin. apply found_in_In in Hin. congruence.
Qed.

End MergeMore.

(** X1: merging a chunk a second time changes nothing, and a sequence merged
    with itself is itself. *)
Theorem X1_merge_again_is_identity (a b : list token.Interface.t) :
  main.merge (main.merge a b) b = main.merge a b
  /\ main.merge a a = a.
Proof.
  split; apply merge_absorb; intros x Hx.
  - rewrite found_in_merge. apply orb_true_iff. right.
    apply found_in_In. now apply in_map.
  - apply found_in_In. now apply in_map.
Qed.

(** X2: when the names of the existing interfaces are pairwise distinct, so
    are the names after a merge, whatever the incoming sequence holds. *)
Theorem X2_merge_keeps_names_distinct (a b : list token.Interface.t) :
  NoDup (map token.Interface.Name a) ->
  NoDup (map token.Interface.Name (main.merge a b)).
Proof. apply merge_NoDup. Qed.

Lemma X2_merge_keeps_names_distinct_witness :
  NoDup (map token.Interface.Name
             (main.merge [Examples.iface_a]
                         [Examples.twin_bare; Examples.iface_b;
                          Examples.iface_b])).
Proof.
  apply X2_merge_keeps_names_distinct. simpl.
  repeat constructor; simpl; intuition.
Defined.

(** X3: merging chunk after chunk, as [run] and [parseDest] do, gives what
    one merge of the chunks put end to end gives. *)
Theorem X3_merge_chunk_by_chunk (a b c : list token.Interface.t) :
  main.merge (main.merge a b) c = main.merge a (b ++ c)%list.
Proof. symmetry. apply merge_app. Qed.

(** X4: after a merge a name is present exactly when it was present in one
    of the two sequences. *)
Theorem X4_merge_names (a b : list token.Interface.t) (n : string) :
  main.found_in (main.merge a b) n
  = main.found_in a n || main.found_in b n.
Proof. apply found_in_merge. Qed.

(** ** [stringsFlag] *)

Section Flags.
Import main.

Definition comma_free (s : string) : bool :=
  negb (string_existsb (Ascii.eqb ",") s).

Lemma split_comma_step (cur s : string) (c : ascii) :
  strings.split_from "," 0 cur (String c s)
  = if Ascii.eqb "," c then cur :: strings.split_from "," 0 EmptyString s
    else strings.split_from "," 0 (cur ++ String c EmptyString) s.
Proof.
  cbn [strings.split_from].
  assert (String.prefix "," (String c s) = Ascii.eqb "," c) as ->.
  { destruct (Ascii.eqb_spec "," c) as [<-|Hne].
    - apply prefix_correct. cbn. destruct s; reflexivity.
    - destruct (String.prefix "," (String c s)) eqn:E; [|reflexivity].
      apply prefix_correct in E. cbn in E. destruct s; cbn in E; congruence. }
  reflexivity.
Qed.

Lemma split_app_comma (a b cur : string) :
  strings.split_from "," 0 cur (a ++ String "," b)
  = (strings.split_from "," 0 cur a
     ++ strings.split_from "," 0 EmptyString b)%list.
Proof.
  revert cur. induction a as [|c a IH]; intros cur.
  - cbn [append]. rewrite split_comma_step. reflexivity.
  - cbn [append]. rewrite !split_comma_step.
    destruct (Ascii.eqb "," c); [cbn [List.app]; f_equal|]; apply IH.
Qed.

Lemma existsb_append (P : ascii -> bool) (a b : string) :
  string_existsb P (a ++ b) = string_existsb P a || string_existsb P b.
Proof.
  induction a as [|c a IH]; simpl; auto. rewrite IH. apply orb_assoc.
Qed.

Lemma split_comma_free (s cur : string) :
  comma_free cur = true ->
  Forall (fun piece => comma_free piece = true)
         (strings.split_from "," 0 cur s).
Proof.
  revert cur. induction s as [|c s IH]; intros cur Hcur.
  - repeat constructor. exact Hcur.
  - rewrite split_comma_step. destruct (Ascii.eqb "," c) eqn:Ec.
    + constructor; auto.
    + apply IH. unfold comma_free in *. rewrite existsb_append.
      cbn [string_existsb]. rewrite Ec.
      apply negb_true_iff in Hcur. rewrite Hcur. reflexivity.
Qed.

Let keep (ss : list string) (s : string) : list string :=
  match s with
  | EmptyString => ss
  | String _ _ => (ss ++ [s])%list
  end.

Lemma keep_fold (pieces ss : list string) :
  fold_left keep pieces ss
  = (ss ++ filter (fun s => negb (String.eqb s EmptyString)) pieces)%list.
Proof.
  revert ss. induction pieces as [|s pieces IH]; intros ss; simpl.
  - now rewrite app_nil_r.
  - rewrite IH. destruct s; simpl; [reflexivity|].
    now rewrite <- app_assoc.
Qed.

Lemma Set_value (ss : stringsFlag) (arg : string) :
  fst (stringsFlag_Set ss arg)
  = (ss ++ filter (fun s => negb (String.eqb s EmptyString))
                  (strings.Split arg ","))%list.
Proof. unfold stringsFlag_Set. simpl. apply keep_fold. Qed.

End Flags.

(** X5: [Set] keeps what the flag held and appends pieces that are never
    empty and never contain a comma; it never reports an error. *)
Theorem X5_Set_appends_clean_names (ss : main.stringsFlag) (arg : string) :
  exists added,
    fst (main.stringsFlag_Set ss arg) = (ss ++ added)%list
    /\ Forall (fun s => s <> EmptyString /\ comma_free s = true) added
    /\ snd (main.stringsFlag_Set ss arg) = None.
Proof.
  eexists. split; [apply Set_value|]. split; [|reflexivity].
  apply Forall_forall. intros s Hs. apply filter_In in Hs as [Hin Hne].
  split.
  - intros ->. discriminate.
  - pose proof (split_comma_free arg EmptyString eq_refl) as Hall.
    rewrite Forall_forall in Hall. now apply Hall.
Qed.

(** X6: giving a flag twice is the same as giving it once with the two
    arguments joined by a comma. *)
Theorem X6_Set_twice_is_Set_joined (ss : main.stringsFlag) (a b : string) :
  fst (main.stringsFlag_Set (fst (main.stringsFlag_Set ss a)) b)
  = fst (main.stringsFlag_Set ss (a ++ String "," b)).
Proof.
  rewrite !Set_value. unfold strings.Split. rewrite split_app_comma.
  now rewrite filter_app, app_assoc.
Qed.

(** ** The filter and the end of [run] *)

Section RunFacts.
Import token main.
Context {srt : Sorter} {fe : GoFrontend}.






End RunFacts.




(** ** When the template fails *)

Definition is_ok {A : Type} (r : result A) : Prop := exists a, r = Ok a.

Create HintDb tmpl.

Section TemplateFacts.
Import token printer.

Lemma txt_ok (s : string) : is_ok (txt s).
Proof. now exists s. Qed.

Lemma emit_ok_iff (parts : list (result string)) :
  is_ok (emit parts) <-> Forall is_ok parts.
Proof.
  induction parts as [|r parts IH]; simpl.
  - split; [constructor|]. intros _. now eexists.
  - destruct r as [s|e].
    + destruct (emit parts) as [t|e'].
      * split; [|intros _; now eexists].
        intros _. constructor; [now exists s|]. apply IH. now exists t.
      * split.
        -- intros [a Ha]. discriminate.
        -- intros H. inversion H as [|? ? _ Hp]; subst.
           apply IH in Hp as [a Ha]. discriminate.
    + split.
      * intros [a Ha]. discriminate.
      * intros H. inversion H as [|? ? [a Ha] _]. discriminate.
Qed.

Lemma range_ok_iff {A : Type} (l : list A) (body : A -> result string) :
  is_ok (range l body) <-> Forall (fun x => is_ok (body x)) l.
Proof. unfold range. rewrite emit_ok_iff. apply Forall_map. Qed.

Lemma range_i_ok {A : Type} (l : list A) (body : Z -> A -> result string) :
  (forall i x, is_ok (body i x)) -> is_ok (range_i l body).
Proof.
  intros H. unfold range_i. apply emit_ok_iff. generalize 0%Z.
  induction l as [|x l IH]; intros i; simpl; constructor; auto.
Qed.

Lemma call_ok (fn s : string) : is_ok (call fn (Some s)).
Proof. now exists s. Qed.

Lemma if_ok (b : bool) (r : result string) : is_ok r -> is_ok (if_ b r).
Proof. destruct b; simpl; auto. intros _. now eexists. Qed.

Lemma if_nonempty_ok {A : Type} (l : list A) (r : result string) :
  is_ok r -> is_ok (if_nonempty l r).
Proof. destruct l; simpl; auto. intros _. now eexists. Qed.

Hint Resolve txt_ok call_ok if_ok if_nonempty_ok : tmpl.

Ltac ok_parts :=
  cbn [option_map]; apply emit_ok_iff;
  repeat (apply Forall_cons || apply Forall_nil); auto with tmpl.

Lemma tmpl_annotations_ok (l : list Annotation.t) : is_ok (tmpl_annotations l).
Proof.
  unfold tmpl_annotations. apply range_ok_iff, Forall_forall.
  intros a _. ok_parts.
Qed.

Hint Resolve tmpl_annotations_ok : tmpl.

Lemma tmpl_summary_ok (iface : Interface.t) : is_ok (tmpl_summary iface).
Proof.
  unfold tmpl_summary. ok_parts; apply if_nonempty_ok; ok_parts;
    apply range_ok_iff, Forall_forall; intros x _; ok_parts.
Qed.

Section OneInterface.
Variables (p : printer.printer) (iface : Interface.t) (t : string).
Hypothesis Ht : ifaceType p iface = Some t.

Lemma tmpl_lookup_case_ok : is_ok (tmpl_lookup_case p iface).
Proof.
  unfold tmpl_lookup_case, ifaceNameConst. rewrite Ht. ok_parts.
Qed.

Lemma tmpl_signal_case_ok (pkg : string) (signal : Signal.t) :
  is_ok (tmpl_signal_case p pkg iface signal).
Proof.
  unfold tmpl_signal_case, ifaceNameConst, signalBodyType, signalType.
  rewrite Ht. ok_parts; apply range_i_ok; intros; ok_parts.
Qed.

Lemma tmpl_const_ok : is_ok (tmpl_const p iface).
Proof. unfold tmpl_const, ifaceNameConst. rewrite Ht. ok_parts. Qed.

Lemma tmpl_method_ok (method : Method.t) : is_ok (tmpl_method p iface method).
Proof.
  unfold tmpl_method, ifaceNameConst. rewrite Ht. ok_parts.
Qed.

Lemma tmpl_property_ok (prop : Property.t) :
  is_ok (tmpl_property p iface prop).
Proof.
  unfold tmpl_property. ok_parts; apply if_ok.
  - unfold tmpl_getter, ifaceNameConst. rewrite Ht. ok_parts.
  - unfold tmpl_setter, ifaceNameConst. rewrite Ht. ok_parts.
Qed.

Lemma tmpl_signal_ok (signal : Signal.t) : is_ok (tmpl_signal p iface signal).
Proof.
  unfold tmpl_signal, ifaceNameConst, signalBodyType, signalType.
  rewrite Ht. ok_parts.
Qed.

Lemma tmpl_iface_ok : is_ok (tmpl_iface p iface).
Proof.
  unfold tmpl_iface, ifaceNameConst, ifaceNewType. rewrite Ht.
  ok_parts; apply range_ok_iff, Forall_forall; intros x _;
    auto using tmpl_method_ok, tmpl_property_ok, tmpl_signal_ok.
Qed.

End OneInterface.

Lemma tmpl_lookup_case_err (p : printer.printer) (iface : Interface.t)
      (e : error) :
  tmpl_lookup_case p iface = Err e ->
  ifaceType p iface = None /\ e = exec_panic "ifaceNameConst".
Proof.
  destruct (ifaceType p iface) as [t|] eqn:Ht.
  - destruct (tmpl_lookup_case_ok p iface t Ht) as [a Ha]. congruence.
  - unfold tmpl_lookup_case, ifaceNameConst. rewrite Ht. cbn.
    intros H. split; congruence.
Qed.

Lemma emit_first_err (parts : list (result string)) (e : error) :
  emit parts = Err e -> In (Err e) parts.
Proof.
  induction parts as [|r parts IH]; simpl; [discriminate|].
  destruct r as [s|e']; [|intros H; left; congruence].
  destruct (emit parts); [discriminate|]. intros H. right. apply IH.
  congruence.
Qed.

Lemma emit_skip_ok (r : result string) (parts : list (result string))
      (e : error) :
  is_ok r -> emit (r :: parts) = Err e -> emit parts = Err e.
Proof.
  intros [s ->]. simpl. destruct (emit parts); congruence.
Qed.

Lemma Execute_ok_iff (p : printer.printer) (ctx : tmplContext) :
  is_ok (Execute p ctx)
  <-> Forall (fun iface => ifaceType p iface <> None) (Interfaces ctx).
Proof.
  unfold Execute. rewrite emit_ok_iff. split.
  - intros H.
    do 5 (inversion H as [|? ? _ H']; clear H; rename H' into H; subst).
    inversion H as [|? ? Hl _]; subst. apply range_ok_iff in Hl.
    revert Hl. apply Forall_impl. intros iface [a Ha] Hn.
    destruct (tmpl_lookup_case p iface) eqn:E; [|discriminate].
    unfold tmpl_lookup_case, ifaceNameConst in E. rewrite Hn in E.
    discriminate.
  - intros H. rewrite Forall_forall in H.
    assert (Hsome : forall i, In i (Interfaces ctx) ->
                              exists t, ifaceType p i = Some t).
    { intros i Hi. specialize (H i Hi).
      destruct (ifaceType p i) as [t|]; [now exists t|congruence]. }
    repeat (apply Forall_cons || apply Forall_nil); auto with tmpl;
      apply range_ok_iff, Forall_forall; intros i Hi;
      try apply tmpl_summary_ok;
      destruct (Hsome i Hi) as [t Ht];
      eauto using tmpl_lookup_case_ok, tmpl_const_ok, tmpl_iface_ok.
    apply range_ok_iff, Forall_forall. intros sg _.
    eapply tmpl_signal_case_ok; eauto.
Qed.

Lemma Execute_err (p : printer.printer) (ctx : tmplContext) (e : error) :
  Execute p ctx = Err e -> e = exec_panic "ifaceNameConst".
Proof.
  unfold Execute. intros H.
  apply emit_skip_ok in H; [|auto with tmpl].
  apply emit_skip_ok in H;
    [|apply range_ok_iff, Forall_forall; intros i _; apply tmpl_summary_ok].
  do 3 (apply emit_skip_ok in H; [|auto with tmpl]).
  destruct (range (Interfaces ctx) (tmpl_lookup_case p)) as [s|e'] eqn:El.
  - exfalso.
    assert (Hok : is_ok (Execute p ctx)).
    { apply Execute_ok_iff.
      assert (Hl : is_ok (range (Interfaces ctx) (tmpl_lookup_case p)))
        by now exists s.
      apply range_ok_iff in Hl. revert Hl. apply Forall_impl.
      intros iface [a Ha] Hn.
      unfold tmpl_lookup_case, ifaceNameConst in Ha. rewrite Hn in Ha.
      discriminate. }
    unfold Execute in Hok. apply emit_ok_iff in Hok.
    do 5 (inversion Hok as [|? ? _ H']; clear Hok; rename H' into Hok;
          subst).
    apply emit_ok_iff in Hok. destruct Hok as [a Ha]. rewrite El in Ha.
    assert (Hboth : Err e = Ok a) by (rewrite <- H, <- Ha; reflexivity).
    discriminate.
  - simpl in H. injection H as <-.
    unfold range in El. apply emit_first_err in El.
    apply in_map_iff in El as (iface & Hi & _).
    now apply tmpl_lookup_case_err in Hi.
Qed.

End TemplateFacts.

Section PrintMore.
Import token printer.
Context {srt : Sorter} {fe : GoFrontend}.

Lemma ifaceType_no_prefixes (p : printer.printer) (iface : Interface.t) :
  prefixes p = [] ->
  ifaceType p iface = Some (stripping.exported_type (Interface.Name iface)).
Proof. intros H. apply ifaceType_after_strip. now rewrite H. Qed.

Lemma ifaceType_by_name (p : printer.printer) (a b : Interface.t) :
  Interface.Name a = Interface.Name b -> ifaceType p a = ifaceType p b.
Proof. unfold ifaceType. now intros ->. Qed.


Lemma prepared_member (p : printer.printer) (ifaces : list Interface.t)
      (iface : Interface.t) :
  In iface ifaces -> In (sort_members iface) (prepareIfaces p ifaces).
Proof.
  intros H. unfold prepareIfaces. apply in_map.
  eapply Permutation_in; [apply sort_Slice_perm|exact H].
Qed.

Lemma Print_cases (out : string) (ifaces : list Interface.t)
      (opts : list PrintOption) :
  (written (Print out ifaces opts) = out
   /\ err (Print out ifaces opts) <> None)
  \/ exists buf file,
       identRegexp_MatchString (pkgName (configure opts)) = true
       /\ ifaces <> []
       /\ Execute (configure opts)
            (mk_tmplContext (pkgName (configure opts))
                            (prepareIfaces (configure opts) ifaces)) = Ok buf
       /\ goparser_ParseFile buf = Ok file
       /\ written (Print out ifaces opts)
          = out ++ (if gofmt (configure opts)
                    then fst (goformat_Node file) else buf)
       /\ err (Print out ifaces opts)
          = if gofmt (configure opts) then snd (goformat_Node file)
            else None.
Proof.
  unfold Print.
  destruct (identRegexp_MatchString _) eqn:Hid; simpl;
    [|left; split; [reflexivity|discriminate]].
  destruct ifaces as [|i ifaces]; simpl;
    [left; split; [reflexivity|discriminate]|].
  destruct (Execute _ _) as [buf|e] eqn:Hex;
    [|left; split; [reflexivity|discriminate]].
  destruct (goparser_ParseFile buf) as [file|e] eqn:Hp;
    [|left; split; [reflexivity|discriminate]].
  right. exists buf, file. repeat split; auto; try discriminate;
    destruct (gofmt _); try reflexivity;
    destruct (goformat_Node file); reflexivity.
Qed.

End PrintMore.



(** X10: [Print] only ever appends to the writer, and it appends nothing
    unless both checks passed, the template was executed and the parser
    accepted the rendered text; what it then appends is the formatter's text
    or, with [gofmt] off, the rendered text itself. *)
Theorem X10_print_writes_only_parsed_text
        (srt : Sorter) (fe : GoFrontend) (out : string)
        (ifaces : list token.Interface.t) (opts : list printer.PrintOption) :
  (printer.written (printer.Print out ifaces opts) = out
   /\ printer.err (printer.Print out ifaces opts) <> None)
  \/ exists buf file,
       printer.identRegexp_MatchString
         (printer.pkgName (printer.configure opts)) = true
       /\ ifaces <> []
       /\ printer.Execute (printer.configure opts)
            (printer.mk_tmplContext
               (printer.pkgName (printer.configure opts))
               (printer.prepareIfaces (printer.configure opts) ifaces))
          = Ok buf
       /\ goparser_ParseFile buf = Ok file
       /\ printer.written (printer.Print out ifaces opts)
          = out ++ (if printer.gofmt (printer.configure opts)
                    then fst (goformat_Node file) else buf)
       /\ printer.err (printer.Print out ifaces opts)
          = if printer.gofmt (printer.configure opts)
            then snd (goformat_Node file) else None.
Proof. apply Print_cases. Qed.


(** X12: when the package name is valid and [ifaceType] panics on one of the
    interfaces passed in, [Print] returns the template's error for the
    [ifaceNameConst] call and writes nothing. *)
Theorem X12_print_fails_on_prefix_panic
        (srt : Sorter) (fe : GoFrontend) (out : string)
        (ifaces : list token.Interface.t) (opts : list printer.PrintOption)
        (iface : token.Interface.t) :
  printer.identRegexp_MatchString (printer.pkgName (printer.configure opts))
  = true ->
  In iface ifaces ->
  printer.ifaceType (printer.configure opts) iface = None ->
  printer.written (printer.Print out ifaces opts) = out
  /\ printer.err (printer.Print out ifaces opts)
     = Some (exec_panic "ifaceNameConst").
Proof.
  intros Hid Hin Hnone.
  assert (Hne : ifaces <> []) by (intros ->; contradiction).
  rewrite Print_checked by assumption. cbv zeta.
  destruct (printer.Execute _ _) as [buf|e] eqn:E.
  - exfalso.
    assert (Hok : is_ok (printer.Execute (printer.configure opts)
                           (printer.mk_tmplContext
                              (printer.pkgName (printer.configure opts))
                              (printer.prepareIfaces (printer.configure opts)
                                                     ifaces))))
      by now exists buf.
    apply Execute_ok_iff in Hok. rewrite Forall_forall in Hok.
    apply (Hok _ (prepared_member _ _ _ Hin)).
    rewrite <- Hnone. now apply ifaceType_by_name.
  - apply Execute_err in E. subst e. split; reflexivity.
Qed.

Lemma X12_print_fails_on_prefix_panic_witness :
  printer.written
    (@printer.Print insertion_sorter permissive_frontend EmptyString
       [Examples.iface_b; Examples.iface_a] [printer.WithPrefixes ["a"]])
  = EmptyString
  /\ printer.err
       (@printer.Print insertion_sorter permissive_frontend EmptyString
          [Examples.iface_b; Examples.iface_a] [printer.WithPrefixes ["a"]])
     = Some (exec_panic "ifaceNameConst").
Proof.
  apply (X12_print_fails_on_prefix_panic insertion_sorter permissive_frontend
           EmptyString _ _ Examples.iface_a).
  - reflexivity.
  - right. now left.
  - reflexivity.
Defined.

(** ** When [ifaceType] panics, and what it returns on well-formed names *)

Section IfaceTypeMore.
Import token stripping layout ident.

Lemma slice_from_None (n : nat) (s : string) :
  slice_from n s = None -> (length s < n)%nat.
Proof.
  revert s. induction n as [|n IH]; intros s; simpl; [discriminate|].
  destruct s as [|c s]; simpl; [lia|]. intros H. apply IH in H. lia.
Qed.

Lemma Index_range (s q : string) :
  strings.Index s q = (-1)%Z \/ (0 <= strings.Index s q)%Z.
Proof. unfold strings.Index. destruct (index 0 q s); [right|left]; lia. Qed.

Lemma strip_None (name : string) (pfx : list string) :
  Forall (fun q => q <> EmptyString) pfx ->
  printer.strip_prefixes name pfx = None ->
  exists q, In q pfx
            /\ (0 <= strings.Index name (trim_dot q))%Z
            /\ (Z.of_nat (length name)
                <= strings.Index name (trim_dot q)
                   + Z.of_nat (length (trim_dot q)))%Z.
Proof.
  induction 1 as [|q pfx Hq _ IH]; [discriminate|].
  rewrite strip_step by assumption. cbv zeta.
  destruct (Z.eqb_spec (strings.Index name (trim_dot q)) (-1)) as [E|E].
  - intros H. destruct (IH H) as (q' & Hin & Hr). exists q'. split; auto.
    now right.
  - intros H. apply slice_from_None in H. exists q. split; [now left|].
    destruct (Index_range name (trim_dot q)); [contradiction|]. lia.
Qed.

Lemma upper_char_alnum (c : ascii) : is_alnum (upper_char c) = is_alnum c.
Proof. all_bytes c. Qed.

Lemma upper_char_ident_eq (c : ascii) :
  ident_char (upper_char c) = ident_char c.
Proof. all_bytes c. Qed.

Lemma upper_char_dot (c : ascii) :
  Ascii.eqb (upper_char c) "." = Ascii.eqb c ".".
Proof. all_bytes c. Qed.

Lemma letter_upper_char (c : ascii) :
  is_letter c = true -> is_upper (upper_char c) = true.
Proof. all_bytes c. Qed.

Lemma upper_plain (c : ascii) :
  is_upper c = true ->
  is_letter c = true /\ Ascii.eqb c "." = false /\ is_underscore c = false.
Proof. all_bytes c. Qed.

Lemma dotted_tail (c : ascii) (s : string) :
  dotted (String c s) = true -> dotted s = true.
Proof. cbn [dotted]. intros H. now apply andb_prop in H. Qed.

Lemma dotted_title (b : bool) (s : string) :
  dotted (strings.title_from b s) = dotted s.
Proof.
  revert b. induction s as [|c s IH]; intros b; [reflexivity|].
  cbn [strings.title_from dotted]. rewrite IH. f_equal.
  assert (Hhead : forall x, (if b then upper_char x else x) = upper_char x
                            \/ (if b then upper_char x else x) = x)
    by (intros x; destruct b; auto).
  destruct (Hhead c) as [-> | ->].
  - rewrite upper_char_dot, upper_char_ident_eq.
    destruct s as [|d s]; [reflexivity|]. cbn [strings.title_from].
    destruct (strings.isSeparator c); [|reflexivity].
    now rewrite upper_char_alnum.
  - destruct s as [|d s]; [reflexivity|]. cbn [strings.title_from].
    destruct (strings.isSeparator c); [|reflexivity].
    now rewrite upper_char_alnum.
Qed.

Let f : string -> string :=
  fun s => "_" ++ strings.ToUpper (substring 1 (length s - 1) s).

Lemma iface_replace_step (c d : ascii) (s : string) :
  printer.ifaceRegexp_ReplaceAllStringFunc f (String c (String d s))
  = if (Ascii.eqb c "." || is_underscore c) && is_alnum d
    then String "_" (String (upper_char d)
                            (printer.ifaceRegexp_ReplaceAllStringFunc f s))
    else String c (printer.ifaceRegexp_ReplaceAllStringFunc f (String d s)).
Proof.
  cbn [printer.ifaceRegexp_ReplaceAllStringFunc].
  destruct ((Ascii.eqb c "." || is_underscore c) && is_alnum d); reflexivity.
Qed.

Lemma iface_replace_ident (s : string) :
  dotted s = true ->
  string_forallb ident_char
    (printer.ifaceRegexp_ReplaceAllStringFunc f s) = true.
Proof.
  remember (length s) as n eqn:Hn. revert s Hn.
  induction n as [n IH] using lt_wf_ind. intros s Hn Hd.
  destruct s as [|c [|d s']].
  - reflexivity.
  - cbn in *. destruct (Ascii.eqb c "."); [discriminate|].
    now rewrite andb_true_r in *.
  - pose proof (dotted_tail _ _ Hd) as Hd1.
    pose proof (dotted_tail _ _ Hd1) as Hd2.
    rewrite iface_replace_step.
    destruct ((Ascii.eqb c "." || is_underscore c) && is_alnum d) eqn:Em.
    + cbn [string_forallb].
      apply andb_prop in Em as [_ Ha].
      assert (ident_char (upper_char d) = true) as ->
        by (rewrite upper_char_ident_eq; unfold ident_char; now rewrite Ha).
      rewrite (IH (length s')); simpl in *; auto; lia.
    + cbn [string_forallb].
      rewrite (IH (length (String d s'))); simpl in *; auto; try lia.
      rewrite andb_true_r.
      cbn [dotted] in Hd. apply andb_prop in Hd as [Hc _].
      destruct (Ascii.eqb c ".") eqn:Ec; [|exact Hc].
      cbn [orb andb] in Em. congruence.
Qed.

Lemma iface_replace_head (c : ascii) (s : string) :
  is_upper c = true ->
  printer.ifaceRegexp_ReplaceAllStringFunc f (String c s)
  = String c (printer.ifaceRegexp_ReplaceAllStringFunc f s).
Proof.
  intros Hc. destruct (upper_plain c Hc) as (_ & Hdot & Hus).
  destruct s as [|d s]; [reflexivity|].
  rewrite iface_replace_step, Hdot, Hus. reflexivity.
Qed.

Lemma exported_type_identifier (c : ascii) (tail : string) :
  is_letter c = true -> dotted (String c tail) = true ->
  go_identifier (exported_type (String c tail)) = true
  /\ printer.isKeyword (exported_type (String c tail)) = false.
Proof.
  intros Hc Hd. unfold exported_type. cbv zeta.
  assert (Hk : printer.isKeyword (strings.Title (String c tail)) = false)
    by (apply (Title_not_keyword EmptyString (String c tail)); discriminate).
  rewrite Hk, Title_cons. fold f.
  pose proof (letter_upper_char c Hc) as Hu.
  rewrite iface_replace_head by assumption. split.
  - cbn [go_identifier]. destruct (upper_plain _ Hu) as (-> & _ & _).
    cbn [orb andb]. apply iface_replace_ident.
    rewrite dotted_title. eapply dotted_tail; eauto.
  - apply (not_keyword_by_byte EmptyString).
    destruct (is_lower (upper_char c)) eqn:El; [|reflexivity].
    now rewrite upper_char_not_lower in El.
Qed.

End IfaceTypeMore.

(** X13: with configured prefixes that are not empty (the flag never stores
    an empty one), [ifaceType] panics only if one of the prefixes occurs in
    the interface name and no byte of the name follows its first
    occurrence. *)
Theorem X13_ifaceType_panics_only_at_end_of_name
        (p : printer.printer) (iface : token.Interface.t) :
  Forall (fun q => q <> EmptyString) (printer.prefixes p) ->
  printer.ifaceType p iface = None ->
  exists q,
    In q (printer.prefixes p)
    /\ (0 <= strings.Index (token.Interface.Name iface)
                           (stripping.trim_dot q))%Z
    /\ (Z.of_nat (length (token.Interface.Name iface))
        <= strings.Index (token.Interface.Name iface) (stripping.trim_dot q)
           + Z.of_nat (length (stripping.trim_dot q)))%Z.
Proof.
  intros Hne Hnone. apply strip_None; auto.
  unfold printer.ifaceType in Hnone.
  destruct (printer.strip_prefixes _ _); [|reflexivity].
  destruct (printer.isKeyword _); discriminate.
Qed.

Lemma X13_ifaceType_panics_only_at_end_of_name_witness :
  exists q,
    In q ["com.acme"; "Foo"]
    /\ (0 <= strings.Index "org.example.Foo" (stripping.trim_dot q))%Z
    /\ (Z.of_nat (length "org.example.Foo")
        <= strings.Index "org.example.Foo" (stripping.trim_dot q)
           + Z.of_nat (length (stripping.trim_dot q)))%Z.
Proof.
  apply (X13_ifaceType_panics_only_at_end_of_name
           (printer.mk_printer "dbusgen" true ["com.acme"; "Foo"])
           (token.Interface.mk "org.example.Foo" [] [] [] [])).
  - repeat constructor; discriminate.
  - reflexivity.
Defined.

(** X14: a first configured prefix that, without its trailing dot, is the
    whole interface name makes [ifaceType] panic. *)
Theorem X14_ifaceType_panics_on_whole_name
        (p : printer.printer) (iface : token.Interface.t)
        (q : string) (rest : list string) :
  q <> EmptyString ->
  stripping.trim_dot q = token.Interface.Name iface ->
  printer.prefixes p = q :: rest ->
  printer.ifaceType p iface = None.
Proof.
  intros Hq Hname Hp. unfold printer.ifaceType.
  rewrite Hp, strip_step by assumption. cbv zeta. rewrite Hname.
  pose proof (Index_leading (token.Interface.Name iface) EmptyString) as Hi.
  rewrite append_nil_r in Hi. rewrite Hi. cbn [Z.eqb].
  replace (Z.to_nat (0 + Z.of_nat (length (token.Interface.Name iface)) + 1))
    with (length (token.Interface.Name iface) + 1)%nat by lia.
  pose proof (slice_from_app (token.Interface.Name iface) EmptyString 1) as Hs.
  rewrite append_nil_r in Hs. rewrite Hs. reflexivity.
Qed.

Lemma X14_ifaceType_panics_on_whole_name_witness :
  printer.ifaceType
    (printer.mk_printer "dbusgen" true ["org.example.Foo."])
    (token.Interface.mk "org.example.Foo" [] [] [] [])
  = None.
Proof.
  apply (X14_ifaceType_panics_on_whole_name _ _ "org.example.Foo." []).
  - discriminate.
  - reflexivity.
  - reflexivity.
Defined.

(** X15: without configured prefixes, for an interface name that begins
    with a letter and is made of letters, digits, underscores and dots each
    followed by a letter or digit, the type name, the constructor name and
    the constant name are identifiers of Go, and the type name is no
    keyword. *)
Theorem X15_interface_names_are_identifiers
        (p : printer.printer) (iface : token.Interface.t)
        (c : ascii) (tail : string) :
  printer.prefixes p = [] ->
  token.Interface.Name iface = String c tail ->
  is_letter c = true ->
  layout.dotted (String c tail) = true ->
  exists t,
    printer.ifaceType p iface = Some t
    /\ printer.ifaceNewType p iface = Some ("New" ++ t)
    /\ printer.ifaceNameConst p iface = Some ("Interface" ++ t)
    /\ ident.go_identifier t = true
    /\ ident.go_identifier ("New" ++ t) = true
    /\ ident.go_identifier ("Interface" ++ t) = true
    /\ printer.isKeyword t = false.
Proof.
  intros Hp Hname Hc Hd.
  destruct (exported_type_identifier c tail Hc Hd) as [Hid Hk].
  exists (stripping.exported_type (String c tail)).
  unfold printer.ifaceNewType, printer.ifaceNameConst.
  rewrite (ifaceType_no_prefixes p iface Hp), Hname. cbn [option_map].
  repeat split; auto;
    (apply go_identifier_append;
     [reflexivity|apply go_identifier_chars, Hid]).
Qed.

Lemma X15_interface_names_are_identifiers_witness :
  exists t,
    printer.ifaceType (printer.mk_printer "dbusgen" true [])
                      (token.Interface.mk "org.example_2.Foo" [] [] [] [])
    = Some t
    /\ printer.ifaceNewType (printer.mk_printer "dbusgen" true [])
         (token.Interface.mk "org.example_2.Foo" [] [] [] [])
       = Some ("New" ++ t)
    /\ printer.ifaceNameConst (printer.mk_printer "dbusgen" true [])
         (token.Interface.mk "org.example_2.Foo" [] [] [] [])
       = Some ("Interface" ++ t)
    /\ ident.go_identifier t = true
    /\ ident.go_identifier ("New" ++ t) = true
    /\ ident.go_identifier ("Interface" ++ t) = true
    /\ printer.isKeyword t = false.
Proof.
  apply (X15_interface_names_are_identifiers _ _ "o"%char "rg.example_2.Foo");
    reflexivity.
Defined.

(** ** Argument names and argument lists *)

Section ArgLists.
Import token printer layout ident.

Lemma Itoa_inj (i j : Z) : strconv.Itoa i = strconv.Itoa j -> i = j.
Proof.
  unfold strconv.Itoa. intros H.
  assert (Hs : Some (Z.to_int i) = Some (Z.to_int j))
    by (rewrite <- !NilEmpty.isi; now rewrite H).
  injection Hs as Hs. rewrite <- (DecimalZ.of_to i), <- (DecimalZ.of_to j).
  now rewrite Hs.
Qed.

Lemma append_inj_l (a x y : string) : a ++ x = a ++ y -> x = y.
Proof. induction a as [|c a IH]; simpl; [auto|]. intros H. injection H. auto. Qed.

Lemma Itoa_no_lower (i : Z) :
  string_forallb (fun c => negb (is_lower c)) (strconv.Itoa i) = true.
Proof.
  assert (Hd : forall d, string_forallb (fun c => negb (is_lower c))
                           (NilEmpty.string_of_uint d) = true)
    by (induction d; simpl; auto).
  unfold strconv.Itoa. destruct i; simpl; auto.
Qed.

Lemma title_from_fixed (b : bool) (s : string) :
  string_forallb (fun c => negb (is_lower c)) s = true ->
  strings.title_from b s = s.
Proof.
  revert b. induction s as [|c s IH]; intros b; simpl; auto. intros H.
  apply andb_prop in H as [Hc Hs]. rewrite (IH _ Hs).
  apply negb_true_iff in Hc. unfold upper_char. rewrite Hc.
  now destruct b.
Qed.

Lemma title_from_append (b : bool) (a s : string) :
  string_forallb (fun c => negb (is_lower c)) s = true ->
  strings.title_from b (a ++ s) = strings.title_from b a ++ s.
Proof.
  revert b. induction a as [|c a IH]; intros b H; simpl.
  - now apply title_from_fixed.
  - now rewrite IH.
Qed.

Lemma argName_unnamed (p : printer.printer) (arg : Arg.t) (prefix : string)
      (i : Z) (export : bool) :
  unnamed arg ->
  argName p arg prefix i export
  = (if export then strings.Title prefix else prefix) ++ strconv.Itoa i.
Proof.
  intros Hu. rewrite argName_form, Hu. cbn [raw_ident]. cbv zeta.
  destruct export.
  - apply title_from_append, Itoa_no_lower.
  - now rewrite positional_not_keyword.
Qed.

Lemma joinArgs_from_names (p : printer.printer) (args : list Arg.t)
      (separator : ascii) (suffix : string) (export : bool) (i : Z) :
  joinArgs_from p i args separator suffix export
  = declarations separator (names_from p suffix export i args) args.
Proof.
  revert i. induction args as [|a args IH]; intros i; simpl; auto.
  now rewrite IH.
Qed.

Lemma concat_cons2 (sep a b : string) (l : list string) :
  String.concat sep (a :: b :: l) = a ++ sep ++ String.concat sep (b :: l).
Proof. reflexivity. Qed.

Lemma concat_sep (sep n : string) (ns : list string) :
  String.concat sep (n :: ns)
  = n ++ String.concat EmptyString (map (append sep) ns).
Proof.
  revert n. induction ns as [|m ns IH]; intros n.
  - simpl. now rewrite append_nil_r.
  - rewrite concat_cons2, IH. cbn [map].
    destruct ns as [|k ns].
    + simpl. now rewrite !append_nil_r.
    + cbn [map]. rewrite concat_cons2. cbn [append].
      now rewrite append_assoc.
Qed.

Lemma joinArgNames_from_pos (p : printer.printer) (args : list Arg.t) (i : Z) :
  (0 < i)%Z ->
  joinArgNames_from p i args
  = String.concat EmptyString
      (map (append ",") (names_from p "in" false i args)).
Proof.
  revert i. induction args as [|a args IH]; intros i Hi; [reflexivity|].
  cbn [joinArgNames_from names_from map].
  destruct (Z.eqb_spec i 0) as [E|_]; [lia|].
  rewrite IH by lia.
  destruct args as [|b args]; [simpl; now rewrite !append_nil_r|].
  cbn [names_from map]. rewrite concat_cons2. cbn [append]. reflexivity.
Qed.

Lemma joinStoreArgs_from_pos (p : printer.printer) (args : list Arg.t)
      (i : Z) :
  (0 < i)%Z ->
  joinStoreArgs_from p i args
  = String.concat EmptyString
      (map (append ",")
           (map (append "&") (names_from p "out" false i args))).
Proof.
  revert i. induction args as [|a args IH]; intros i Hi; [reflexivity|].
  cbn [joinStoreArgs_from names_from map].
  destruct (Z.eqb_spec i 0) as [E|_]; [lia|].
  rewrite IH by lia.
  destruct args as [|b args]; [simpl; now rewrite !append_nil_r|].
  cbn [names_from map]. rewrite concat_cons2. cbn [append]. reflexivity.
Qed.

End ArgLists.

(** X16: two unnamed arguments at different positions of an argument list
    never get the same identifier. *)
Theorem X16_unnamed_arguments_get_distinct_names
        (p : printer.printer) (a b : token.Arg.t) (prefix : string)
        (i j : Z) (export : bool) :
  layout.unnamed a -> layout.unnamed b -> i <> j ->
  printer.argName p a prefix i export <> printer.argName p b prefix j export.
Proof.
  intros Ha Hb Hij. rewrite !argName_unnamed by assumption.
  intros H. apply append_inj_l, Itoa_inj in H. contradiction.
Qed.

Lemma X16_unnamed_arguments_get_distinct_names_witness :
  printer.argName (printer.mk_printer "dbusgen" true [])
                  (token.Arg.mk EmptyString "string") "in" 1 true
  <> printer.argName (printer.mk_printer "dbusgen" true [])
                     (token.Arg.mk EmptyString "uint32") "in" 11 true.
Proof.
  apply X16_unnamed_arguments_get_distinct_names;
    [reflexivity|reflexivity|lia].
Defined.

(** X17: the parameters a method binding declares and the values it passes
    on are the same identifiers in the same order: the declaration list and
    the call list of the in-arguments are built from one list of positional
    names, and so are the result list and the [Store] list of the
    out-arguments. *)
Theorem X17_declared_and_used_names_agree
        (p : printer.printer) (method : token.Method.t) :
  printer.joinMethodInArgs p method
  = layout.declarations ","
      (layout.names p "in" false (token.Method.In_ method))
      (token.Method.In_ method)
  /\ printer.joinArgNames p (token.Method.In_ method)
     = String.concat ","
         (layout.names p "in" false (token.Method.In_ method))
  /\ printer.joinMethodOutArgs p method
     = layout.declarations ","
         (layout.names p "out" false (token.Method.Out method))
         (token.Method.Out method)
  /\ printer.joinStoreArgs p (token.Method.Out method)
     = String.concat ","
         (map (append "&")
              (layout.names p "out" false (token.Method.Out method))).
Proof.
  repeat split.
  - apply joinArgs_from_names.
  - unfold printer.joinArgNames, layout.names.
    destruct (token.Method.In_ method) as [|a args]; [reflexivity|].
    cbn [printer.joinArgNames_from layout.names_from Z.eqb].
    rewrite concat_sep, joinArgNames_from_pos by lia. reflexivity.
  - apply joinArgs_from_names.
  - unfold printer.joinStoreArgs, layout.names.
    destruct (token.Method.Out method) as [|a args]; [reflexivity|].
    cbn [printer.joinStoreArgs_from layout.names_from Z.eqb map].
    rewrite concat_sep, joinStoreArgs_from_pos by lia. reflexivity.
Qed.

(** ** Accessors and member names *)

Section Members.
Import token printer ident.

Lemma propNeedsAccessor_ifaceHasMethod (p : printer.printer)
      (iface : Interface.t) (name : string) :
  propNeedsAccessor p iface name = negb (ifaceHasMethod p iface name).
Proof.
  unfold propNeedsAccessor, ifaceHasMethod.
  induction (Interface.Methods iface) as [|m ms IH]; simpl; auto.
  destruct (String.eqb (Method.Name m) name); auto.
Qed.

Lemma accessor_identifier (pre name : string) :
  go_identifier pre = true ->
  string_forallb ident_char name = true ->
  go_identifier (pre ++ strings.Title name) = true.
Proof.
  intros Hp Hn. apply go_identifier_append; auto.
  now apply title_from_ident.
Qed.

End Members.

(** X18: [propNeedsAccessor] is the negation of [ifaceHasMethod]; and for an
    interface whose method names are already in title case (so that every
    method is emitted under its own name) a getter is synthesized exactly
    when the property is readable and no method binding has the getter's
    name, and a setter exactly when it is writable and no method binding has
    the setter's name. *)
Theorem X18_accessor_guard_on_title_case_methods
        (p : printer.printer) (iface : token.Interface.t)
        (prop : token.Property.t) :
  (forall m, In m (token.Interface.Methods iface) ->
             printer.methodType p m = token.Method.Name m) ->
  (forall name, printer.propNeedsAccessor p iface name
                = negb (printer.ifaceHasMethod p iface name))
  /\ (printer.propNeedsGet p iface prop = true <->
      token.Property.Read prop = true
      /\ forall m, In m (token.Interface.Methods iface) ->
                   printer.methodType p m <> printer.propGetType p prop)
  /\ (printer.propNeedsSet p iface prop = true <->
      token.Property.Write prop = true
      /\ forall m, In m (token.Interface.Methods iface) ->
                   printer.methodType p m <> printer.propSetType p prop).
Proof.
  intros Htitle. split; [apply propNeedsAccessor_ifaceHasMethod|].
  rewrite propNeedsGet_raw_name, propNeedsSet_raw_name.
  split; split; intros [Hr H]; split; auto; intros m Hm;
    specialize (H m Hm); rewrite Htitle in * by assumption; auto.
Qed.

Lemma X18_accessor_guard_on_title_case_methods_witness :
  let p := printer.mk_printer "dbusgen" true [] in
  let prop := token.Property.mk "foo" (token.Arg.mk "value" "string")
                                true true [] in
  let iface := token.Interface.mk "a.b" [token.Method.mk "GetFoo" [] [] []]
                                  [prop] [] [] in
  printer.propNeedsGet p iface prop = false
  /\ printer.propNeedsSet p iface prop = true.
Proof.
  intros p prop iface.
  destruct (X18_accessor_guard_on_title_case_methods p iface prop)
    as (_ & Hg & Hs).
  - intros m [<-|[]]. reflexivity.
  - split.
    + destruct (printer.propNeedsGet p iface prop) eqn:E; [|reflexivity].
      destruct (proj1 Hg eq_refl) as [_ E']. exfalso.
      apply (E' _ (or_introl eq_refl)). reflexivity.
    + apply Hs. split; [reflexivity|]. intros m [<-|[]]. discriminate.
Defined.

(** X19: for a member whose raw name is an identifier, the name of its
    method binding is an identifier and no keyword; for a property whose raw
    name is made of letters, digits and underscores, the getter and the setter
    names are identifiers and no keywords. *)
Theorem X19_member_names_are_identifiers
        (p : printer.printer) (method : token.Method.t)
        (prop : token.Property.t) :
  ident.go_identifier (token.Method.Name method) = true ->
  string_forallb ident.ident_char (token.Property.Name prop) = true ->
  (ident.go_identifier (printer.methodType p method) = true
   /\ printer.isKeyword (printer.methodType p method) = false)
  /\ (ident.go_identifier (printer.propGetType p prop) = true
      /\ printer.isKeyword (printer.propGetType p prop) = false)
  /\ (ident.go_identifier (printer.propSetType p prop) = true
      /\ printer.isKeyword (printer.propSetType p prop) = false).
Proof.
  intros Hm Hp. unfold printer.methodType, printer.propGetType,
    printer.propSetType, printer.propType.
  split; [split|split; split].
  - now apply Title_identifier.
  - apply (Title_not_keyword EmptyString). intros E. rewrite E in Hm.
    discriminate.
  - now apply accessor_identifier.
  - reflexivity.
  - now apply accessor_identifier.
  - reflexivity.
Qed.

Lemma X19_member_names_are_identifiers_witness :
  let p := printer.mk_printer "dbusgen" true [] in
  let method := token.Method.mk "type" [] [] [] in
  let prop := token.Property.mk "2nd_value" (token.Arg.mk "v" "string")
                                true true [] in
  (ident.go_identifier (printer.methodType p method) = true
   /\ printer.isKeyword (printer.methodType p method) = false)
  /\ (ident.go_identifier (printer.propGetType p prop) = true
      /\ printer.isKeyword (printer.propGetType p prop) = false)
  /\ (ident.go_identifier (printer.propSetType p prop) = true
      /\ printer.isKeyword (printer.propSetType p prop) = false).
Proof.
  intros p method prop.
  apply X19_member_names_are_identifiers; reflexivity.
Defined.

(** ** Keywords in derived argument names *)

Section KeywordFacts.
Import token ident.

Let G : string -> string :=
  fun s => strings.Title (substring 1 (length s - 1) s).

Lemma legacy_replace_one (c : ascii) :
  dbusgen.varRegexp_ReplaceAllStringFunc G (String c EmptyString)
  = String c EmptyString.
Proof. reflexivity. Qed.

Lemma legacy_replace_lower_inv (s : string) :
  string_forallb is_lower (dbusgen.varRegexp_ReplaceAllStringFunc G s) = true ->
  dbusgen.varRegexp_ReplaceAllStringFunc G s = s.
Proof.
  induction s as [|c t IH]; [reflexivity|].
  destruct t as [|d s']; [reflexivity|].
  rewrite legacy_replace_step.
  destruct (is_underscore c && is_alnum d) eqn:Em.
  - cbn. rewrite upper_char_not_lower. discriminate.
  - cbn [string_forallb]. intros H. apply andb_prop in H as [_ H].
    f_equal. apply IH. exact H.
Qed.

Lemma legacy_replace_no_underscore (s : string) :
  no_underscore s = true ->
  dbusgen.varRegexp_ReplaceAllStringFunc G s = s.
Proof.
  induction s as [|c t IH]; [reflexivity|].
  destruct t as [|d s']; [reflexivity|].
  unfold no_underscore in *. cbn [string_forallb]. intros H.
  apply andb_prop in H as [Hc Ht]. apply negb_true_iff in Hc.
  rewrite legacy_replace_step, Hc. cbn [andb]. f_equal. apply IH.
  exact Ht.
Qed.

Lemma argName_not_keyword (p : printer.printer) (arg : Arg.t)
      (prefix : string) (i : Z) (export : bool) :
  printer.isKeyword (printer.argName p arg prefix i export) = false.
Proof.
  rewrite argName_form. cbv zeta.
  destruct (raw_ident (Arg.Name arg) prefix i) as [|c s] eqn:E.
  - now destruct export.
  - destruct export.
    + apply (Title_not_keyword EmptyString (String c s)). discriminate.
    + destruct (printer.isKeyword (String c s)) eqn:Ek; auto.
      apply Title_not_keyword. discriminate.
Qed.

Lemma newArg_keyword (identifier prefix : string) (i : Z) :
  dbusgen.isKeyword (dbusgen.newArg_name identifier prefix i)
  = dbusgen.isKeyword (lower_first identifier)
    && negb (dbusgen.isKeyword identifier).
Proof.
  change (printer.isKeyword (dbusgen.newArg_name identifier prefix i)
          = printer.isKeyword (lower_first identifier)
            && negb (printer.isKeyword identifier)).
  destruct identifier as [|c tail].
  - cbn [dbusgen.newArg_name lower_first].
    now rewrite positional_not_keyword.
  - cbn [dbusgen.newArg_name lower_first].
    change (dbusgen.isKeyword (String c tail))
      with (printer.isKeyword (String c tail)).
    destruct (printer.isKeyword (String c tail)) eqn:Ek.
    + rewrite andb_false_r. apply Title_not_keyword. discriminate.
    + rewrite andb_true_r. fold G.
      change (strings.ToLower (String c EmptyString)
              ++ dbusgen.varRegexp_ReplaceAllStringFunc G tail)
        with (String (lower_char c)
                     (dbusgen.varRegexp_ReplaceAllStringFunc G tail)).
      destruct (printer.isKeyword
                  (String (lower_char c)
                          (dbusgen.varRegexp_ReplaceAllStringFunc G tail)))
        eqn:E1.
      * pose proof (keyword_lower _ E1) as Hl. cbn [string_forallb] in Hl.
        apply andb_prop in Hl as [_ Hl].
        rewrite (legacy_replace_lower_inv _ Hl) in E1. now rewrite E1.
      * destruct (printer.isKeyword (String (lower_char c) tail)) eqn:E2;
          [|reflexivity].
        pose proof (keyword_lower _ E2) as Hl. cbn [string_forallb] in Hl.
        apply andb_prop in Hl as [_ Hl].
        rewrite (legacy_replace_no_underscore
                   _ (lower_no_underscore _ Hl)) in E1.
        congruence.
Qed.

End KeywordFacts.

(** X20: [argName] never returns a keyword of Go, whatever the raw name, the
    role prefix, the index and the export flag are. *)
Theorem X20_argName_never_returns_keyword
        (p : printer.printer) (arg : token.Arg.t) (prefix : string) (i : Z)
        (export : bool) :
  printer.isKeyword (printer.argName p arg prefix i export) = false.
Proof. apply argName_not_keyword. Qed.

(** X21: the legacy [newArg] returns a keyword of Go exactly when the raw
    identifier is not a keyword itself but becomes one when its first byte
    is lower-cased ([Type], [Func], ...). *)
Theorem X21_newArg_returns_keyword_for_capitalised_keyword
        (identifier prefix : string) (i : Z) :
  dbusgen.isKeyword (dbusgen.newArg_name identifier prefix i)
  = dbusgen.isKeyword (ident.lower_first identifier)
    && negb (dbusgen.isKeyword identifier).
Proof. apply newArg_keyword. Qed.

(** ** [Print] on a model that was printed or merged before *)

Section Reprint.
Import token printer model.
Context {srt : Sorter} {fe : GoFrontend}.

Lemma Print_shuffled (out : string) (opts : list PrintOption)
      (l1 l2 : list Interface.t) :
  NoDup (map Interface.Name l1) -> Forall members_unique l1 ->
  shuffled l1 l2 ->
  written (Print out l1 opts) = written (Print out l2 opts)
  /\ err (Print out l1 opts) = err (Print out l2 opts).
Proof.
  intros Hnd Hu Hsh. unfold Print.
  rewrite <- (shuffled_length _ _ Hsh).
  rewrite <- (prepareIfaces_canonical _ _ _ Hnd Hu Hsh).
  destruct (negb _); [auto|]. destruct (_ =? _)%nat; auto.
Qed.

Lemma Print_model_shuffled (out : string) (opts : list PrintOption)
      (l : list Interface.t) :
  shuffled l (printer.model (Print out l opts)).
Proof.
  unfold Print.
  destruct (negb _); simpl; [apply shuffled_refl|].
  destruct (_ =? _)%nat; simpl; [apply shuffled_refl|].
  destruct (Execute _ _); simpl; [|apply prepareIfaces_shuffled].
  destruct (goparser_ParseFile _); simpl; [|apply prepareIfaces_shuffled].
  destruct (gofmt _); simpl; [|apply prepareIfaces_shuffled].
  destruct (goformat_Node _). apply prepareIfaces_shuffled.
Qed.

Lemma NoDup_app_disjoint {A : Type} (l1 l2 : list A) (x : A) :
  NoDup (l1 ++ l2)%list -> In x l1 -> In x l2 -> False.
Proof.
  induction l1 as [|y l1 IH]; simpl; [tauto|].
  intros Hnd [->|H1] H2; inversion Hnd as [|? ? Hx Hnd']; subst; auto.
  apply Hx, in_or_app. now right.
Qed.

Lemma merge_disjoint (a b : list Interface.t) :
  (forall x, In x b -> main.found_in a (Interface.Name x) = false) ->
  NoDup (map Interface.Name b) ->
  main.merge a b = (a ++ b)%list.
Proof.
  revert a. induction b as [|x b IH]; intros a Hd Hnd; simpl.
  - now rewrite app_nil_r.
  - rewrite (Hd x) by now left. inversion Hnd as [|? ? Hx Hnd']; subst.
    rewrite IH; auto.
    + now rewrite <- app_assoc.
    + intros y Hy. rewrite found_in_app, (Hd y) by now right. simpl.
      destruct (String.eqb_spec (Interface.Name x) (Interface.Name y))
        as [E|_]; [|reflexivity].
      exfalso. apply Hx. rewrite E. now apply in_map.
Qed.

End Reprint.

(** X22: with pairwise distinct interface names and member names, sorting is
    idempotent, and printing the model a second time, as the first call left
    it, writes the same text and returns the same error as the first call. *)
Theorem X22_printing_again_gives_same_text
        (srt : Sorter) (fe : GoFrontend) (out out' : string)
        (ifaces : list token.Interface.t) (opts : list printer.PrintOption) :
  NoDup (map token.Interface.Name ifaces) ->
  Forall model.members_unique ifaces ->
  printer.prepareIfaces (printer.configure opts)
    (printer.prepareIfaces (printer.configure opts) ifaces)
  = printer.prepareIfaces (printer.configure opts) ifaces
  /\ printer.written
       (printer.Print out
          (printer.model (printer.Print out' ifaces opts)) opts)
     = printer.written (printer.Print out ifaces opts)
  /\ printer.err
       (printer.Print out
          (printer.model (printer.Print out' ifaces opts)) opts)
     = printer.err (printer.Print out ifaces opts).
Proof.
  intros Hnd Hu. split.
  - symmetry. apply prepareIfaces_canonical; auto.
    apply prepareIfaces_shuffled.
  - pose proof (Print_shuffled out opts ifaces
                  (printer.model (printer.Print out' ifaces opts)) Hnd Hu
                  (Print_model_shuffled out' opts ifaces)) as [Hw He].
    split; congruence.
Qed.

Lemma X22_printing_again_gives_same_text_witness :
  printer.prepareIfaces (printer.configure [])
    (@printer.prepareIfaces insertion_sorter (printer.configure [])
       [Examples.iface_b; Examples.iface_a])
  = @printer.prepareIfaces insertion_sorter (printer.configure [])
      [Examples.iface_b; Examples.iface_a]
  /\ printer.written
       (@printer.Print insertion_sorter permissive_frontend EmptyString
          (printer.model
             (@printer.Print insertion_sorter permissive_frontend "x"
                [Examples.iface_b; Examples.iface_a] [])) [])
     = printer.written
         (@printer.Print insertion_sorter permissive_frontend EmptyString
            [Examples.iface_b; Examples.iface_a] [])
  /\ printer.err
       (@printer.Print insertion_sorter permissive_frontend EmptyString
          (printer.model
             (@printer.Print insertion_sorter permissive_frontend "x"
                [Examples.iface_b; Examples.iface_a] [])) [])
     = printer.err
         (@printer.Print insertion_sorter permissive_frontend EmptyString
            [Examples.iface_b; Examples.iface_a] []).
Proof.
  apply X22_printing_again_gives_same_text.
  - simpl. repeat constructor; simpl; intuition discriminate.
  - repeat constructor.
Defined.

(** X23: when two chunks have pairwise distinct interface names, within and
    across the chunks, and unique member names, the text [Print] writes for
    their merge does not depend on the order in which they were merged. *)
Theorem X23_print_of_merge_is_order_independent
        (srt : Sorter) (fe : GoFrontend) (out : string)
        (a b : list token.Interface.t) (opts : list printer.PrintOption) :
  NoDup (map token.Interface.Name (a ++ b)%list) ->
  Forall model.members_unique (a ++ b)%list ->
  printer.written (printer.Print out (main.merge a b) opts)
  = printer.written (printer.Print out (main.merge b a) opts)
  /\ printer.err (printer.Print out (main.merge a b) opts)
     = printer.err (printer.Print out (main.merge b a) opts).
Proof.
  intros Hnd Hu. rewrite map_app in Hnd.
  pose proof (NoDup_app_remove_l _ _ Hnd) as Hb.
  pose proof (NoDup_app_remove_r _ _ Hnd) as Ha.
  assert (Hab : forall x, In x b ->
                          main.found_in a (token.Interface.Name x) = false).
  { intros x Hx.
    destruct (main.found_in a (token.Interface.Name x)) eqn:E; auto.
    apply found_in_In in E. exfalso.
    apply (NoDup_app_disjoint _ _ _ Hnd E). now apply in_map. }
  assert (Hba : forall x, In x a ->
                          main.found_in b (token.Interface.Name x) = false).
  { intros x Hx.
    destruct (main.found_in b (token.Interface.Name x)) eqn:E; auto.
    apply found_in_In in E. exfalso.
    apply (NoDup_app_disjoint _ _ (token.Interface.Name x) Hnd); auto.
    now apply in_map. }
  rewrite (merge_disjoint a b Hab Hb), (merge_disjoint b a Hba Ha).
  apply Print_shuffled.
  - now rewrite map_app.
  - exact Hu.
  - exists (b ++ a)%list. split; [apply Permutation_app_comm|].
    clear. induction (b ++ a)%list; constructor; auto.
    unfold model.same_members. repeat split; auto.
Qed.

Lemma X23_print_of_merge_is_order_independent_witness :
  printer.written
    (@printer.Print insertion_sorter permissive_frontend EmptyString
       (main.merge [Examples.iface_b] [Examples.iface_a]) [])
  = printer.written
      (@printer.Print insertion_sorter permissive_frontend EmptyString
         (main.merge [Examples.iface_a] [Examples.iface_b]) [])
  /\ printer.err
       (@printer.Print insertion_sorter permissive_frontend EmptyString
          (main.merge [Examples.iface_b] [Examples.iface_a]) [])
     = printer.err
         (@printer.Print insertion_sorter permissive_frontend EmptyString
            (main.merge [Examples.iface_a] [Examples.iface_b]) []).
Proof.
  apply X23_print_of_merge_is_order_independent.
  - simpl. repeat constructor; simpl; intuition discriminate.
  - repeat constructor.
Defined.
